(** * Erasure-decoded read path of pkg/eestream (decode.go) and the
      bolt-backed key/value client.

    The Go code is embedded shallowly: structs are records, [error] values
    are an inductive type with [None] for Go's [nil], [int]/[int64] are [Z]
    with the two's-complement wrap-around written out, Go maps are stdpp
    [gmap]s, a panic is an explicit [Panic] outcome, and pointer-receiver
    methods pass the receiver's state in and out. *)

From Stdlib Require Import ZArith Lia.
From Stdlib Require Import Init.Byte.
From stdpp Require Import base numbers option list gmap strings sorting.

Open Scope Z_scope.
Set Warnings "-register-all".

(** ** Go values *)

Abbreviation byte := Byte.byte.

(** Go's [error] interface.  The constructors are the error values the two
    source files create or propagate; [nil] is [None : option error]. *)
Inductive error : Type :=
  | EOF                                  (* io.EOF *)
  | ErrNegativeExpectedSize              (* "negative expected size" *)
  | ErrNotFactor (expectedSize dbs : Z)  (* "expected size (%d) not a factor decoded block size (%d)" *)
  | ErrNotEnoughReaders                  (* "not enough readers to reconstruct data!" *)
  | ErrSizesDontMatch                    (* "decode failure: range reader sizes don't all match" *)
  | ErrInvalidCombo (size ebs : Z)       (* "invalid erasure decoder and range reader combo. ..." *)
  | ErrWrap (e : error)                  (* Error.Wrap(err) *)
  | ErrCombined (es : list error)        (* aggregate built by utils.CombineErrors *)
  | ErrOther (msg : string).             (* any error of a collaborator *)

(** What a Go run-time panic was about. *)
Inductive panic : Type :=
  | IndexOutOfRange (i len : Z)
  | DivideByZero
  | MakesliceCapOutOfRange
  | NilDereference.

(** A call either returns or panics. *)
Inductive outcome (A : Type) : Type :=
  | Done (a : A)
  | Panic (p : panic).
Arguments Done {A} a.
Arguments Panic {A} p.

(** [int64] arithmetic wraps around in two's complement. *)
Definition wrap64 (z : Z) : Z := (z + 2 ^ 63) mod 2 ^ 64 - 2 ^ 63.

Definition int64_range (z : Z) : Prop := - 2 ^ 63 <= z < 2 ^ 63.

(** The builtin [copy(dst, src)]: the first [min (len dst) (len src)]
    elements of [src] overwrite the front of [dst]; the count is returned. *)
Definition copy (dst src : list byte) : list byte * nat :=
  let n := Nat.min (length dst) (length src) in
  (take n src ++ drop n dst, n).

(** The scratch buffer of [ioutil.Discard] holds 8192 bytes. *)
Definition discardBufSize : nat := Z.to_nat 8192.

(** ** The collaborators of decode.go *)

(** [ErasureScheme]: the four numbers the decoder consumes (Go [int]s). *)
Record ErasureScheme := {
  EncodedBlockSize : Z;
  DecodedBlockSize : Z;
  RequiredCount : Z;
  TotalCount : Z;
}.

(** A piece stream ([io.ReadCloser]) of the reader map: the bytes it still
    delivers, the error that ends it ([None]: a clean EOF), what its [Close]
    returns, and a ghost counter of the [Close] calls it has received. *)
Record pieceStream := {
  ps_bytes : list byte;
  ps_readErr : option error;
  ps_closeErr : option error;
  ps_closed : nat;
}.

(** [r.Close()] on a piece stream. *)
Definition psClose (r : pieceStream) : pieceStream * option error :=
  ({| ps_bytes := ps_bytes r; ps_readErr := ps_readErr r;
      ps_closeErr := ps_closeErr r; ps_closed := S (ps_closed r) |},
   ps_closeErr r).

(** Modelled from the spec: [utils.CombineErrors] is not among the sources.
    "[close] combines errors ... into a single aggregate with deterministic
    ordering"; "a nil aggregate indicates all components closed cleanly":
    the non-nil errors, in slice order, or nil when there is none. *)
Definition CombineErrors (errs : list (option error)) : option error :=
  match omap id errs with
  | [] => None
  | es => Some (ErrCombined es)
  end.

(** The [StripeReader] of stripe_reader.go is not among the sources: its
    state type and its two methods are an interface the decoder is
    parametric in. [ReadStripe sr num p] returns the new state, the slice
    that replaces [p], and the error. *)
Class StripeReaderOps (SR : Type) := {
  ReadStripe : SR → Z → list byte → SR * (list byte * option error);
  srClose : SR → SR * option error;
}.

(** ** decodedReader *)

Section DecodedReader.
Context {SR : Type} `{!StripeReaderOps SR}.

(** [checkMBM] and [NewStripeReader] live in files that are not among the
    sources; the decoder is parametric in them. *)
Variable checkMBM : Z → option error.
Variable NewStripeReader : gmap Z pieceStream → ErasureScheme → Z → SR.

(** The struct. [ctx]/[cancel] are left out (no cancellation is
    modelled); [close : sync.Once] is the latch [closeDone]; [srCloses]
    is a ghost counter of the calls of [stripeReader.Close]. *)
Record decodedReader := {
  readers : gmap Z pieceStream;
  scheme : ErasureScheme;
  stripeReader : SR;
  outbuf : list byte;
  err : option error;
  currentStripe : Z;
  expectedStripes : Z;
  closeDone : bool;
  closeErr : option error;
  srCloses : nat;
}.

Definition set_read (dr : decodedReader) (sr : SR) (ob : list byte)
    (e : option error) (cs : Z) : decodedReader :=
  {| readers := readers dr; scheme := scheme dr; stripeReader := sr;
     outbuf := ob; err := e; currentStripe := cs;
     expectedStripes := expectedStripes dr; closeDone := closeDone dr;
     closeErr := closeErr dr; srCloses := srCloses dr |}.

(** The tail of [Read]: copy out, slide the rest to the front, shrink. *)
Definition drain (dr : decodedReader) (plen : nat)
    : decodedReader * (list byte * option error) :=
  let ob := outbuf dr in
  let '(p, n) := copy (replicate plen Byte.x00) ob in
  let '(slid, _) := copy ob (drop n ob) in
  (set_read dr (stripeReader dr) (take (length ob - n)%nat slid)
     (err dr) (currentStripe dr),
   (take n p, None)).

(** [func (dr *decodedReader) Read(p []byte) (n int, err error)], with
    [plen = len(p)]; the [n] bytes written to [p] are returned. *)
Definition Read (dr : decodedReader) (plen : nat)
    : decodedReader * (list byte * option error) :=
  if (Z.of_nat (length (outbuf dr)) <=? 0) then
    match err dr with
    | Some e => (dr, ([], Some e))
    | None =>
      if (currentStripe dr >=? expectedStripes dr) then
        (set_read dr (stripeReader dr) (outbuf dr) (Some EOF)
           (currentStripe dr), ([], Some EOF))
      else
        let '(sr', (ob, e)) :=
          ReadStripe (stripeReader dr) (currentStripe dr) (outbuf dr) in
        match e with
        | Some e' => (set_read dr sr' ob e (currentStripe dr), ([], Some e'))
        | None =>
          drain (set_read dr sr' ob e (wrap64 (currentStripe dr + 1))) plen
        end
    end
  else drain dr plen.

Definition set_closed (dr : decodedReader) (rs : gmap Z pieceStream)
    (sr : SR) (ce : option error) (n : nat) : decodedReader :=
  {| readers := rs; scheme := scheme dr; stripeReader := sr;
     outbuf := outbuf dr; err := err dr; currentStripe := currentStripe dr;
     expectedStripes := expectedStripes dr; closeDone := true;
     closeErr := ce; srCloses := n |}.

(** [for i, r := range dr.readers { errs[i] = r.Close() }]. Go leaves the
    iteration order of a map unspecified: [its] is the sequence of
    (key, stream) pairs the runtime happens to produce. The stream is
    closed, then the store into [errs] is bounds-checked. *)
Fixpoint closeReaders (its : list (Z * pieceStream))
    (rs : gmap Z pieceStream) (errs : list (option error))
    : gmap Z pieceStream * outcome (list (option error)) :=
  match its with
  | [] => (rs, Done errs)
  | (i, r) :: its' =>
    let '(r', e) := psClose r in
    let rs' := <[i := r']> rs in
    if bool_decide (0 <= i < Z.of_nat (length errs)) then
      closeReaders its' rs' (<[Z.to_nat i := e]> errs)
    else (rs', Panic (IndexOutOfRange i (Z.of_nat (length errs))))
  end.

(** [func (dr *decodedReader) Close() error]. [sync.Once.Do] marks the
    latch as done also when the function panics. *)
Definition Close (dr : decodedReader) (its : list (Z * pieceStream))
    : decodedReader * outcome (option error) :=
  if closeDone dr then (dr, Done (closeErr dr))
  else
    let n := size (readers dr) in
    let errs := replicate (n + 1)%nat None in
    match closeReaders its (readers dr) errs with
    | (rs', Panic p) =>
      (set_closed dr rs' (stripeReader dr) (closeErr dr) (srCloses dr),
       Panic p)
    | (rs', Done errs1) =>
      let '(sr', e) := srClose (stripeReader dr) in
      let ce := CombineErrors (<[n := e]> errs1) in
      (set_closed dr rs' sr' ce (S (srCloses dr)), Done ce)
    end.

(** The [io.ReadCloser]s decode.go hands out. *)
Inductive Reader : Type :=
  | Fatal (e : error)
  | Decoded (dr : decodedReader)
  | Limited (r : Reader) (n : Z).

(** Modelled from the spec: [readcloser.FatalReadCloser] is not among the
    sources. "a synthetic reader whose first read returns that failure";
    "a reader whose first [read] yields the corresponding error and whose
    [close] is a no-op success". *)
Definition FatalReadCloser (e : error) : Reader := Fatal e.

(** The same helper where decode.go uses it as a piece stream. *)
Definition fatalPiece (e : error) : pieceStream :=
  {| ps_bytes := []; ps_readErr := Some e; ps_closeErr := None;
     ps_closed := 0 |}.

(** Modelled from the spec: [readcloser.LimitReadCloser] is not among the
    sources. "Return a reader that yields at most [length] bytes and then
    EOF; closing it closes the underlying Decoded Reader." *)
Definition LimitReadCloser (r : Reader) (n : Z) : Reader := Limited r n.

Fixpoint rdRead (r : Reader) (plen : nat)
    : Reader * (list byte * option error) :=
  match r with
  | Fatal e => (r, ([], Some e))
  | Decoded dr => let '(dr', res) := Read dr plen in (Decoded dr', res)
  | Limited r' n =>
    if n <=? 0 then (r, ([], Some EOF))
    else
      let '(r'', (data, e)) := rdRead r' (Nat.min plen (Z.to_nat n)) in
      (Limited r'' (n - Z.of_nat (length data)), (data, e))
  end.

Fixpoint rdClose (r : Reader) (its : list (Z * pieceStream))
    : Reader * outcome (option error) :=
  match r with
  | Fatal e => (r, Done None)
  | Decoded dr => let '(dr', res) := Close dr its in (Decoded dr', res)
  | Limited r' n => let '(r'', res) := rdClose r' its in (Limited r'' n, res)
  end.

(** [func DecodeReaders(ctx, rs, es, expectedSize, mbm) io.ReadCloser].
    [%] and [/] on [int64] are [Z.rem] and [Z.quot] and panic on a zero
    divisor; [make([]byte, 0, cap)] panics on a negative capacity. *)
Definition DecodeReaders (rs : gmap Z pieceStream) (es : ErasureScheme)
    (expectedSize mbm : Z) : outcome Reader :=
  if expectedSize <? 0 then
    Done (FatalReadCloser ErrNegativeExpectedSize)
  else if DecodedBlockSize es =? 0 then Panic DivideByZero
  else if negb (Z.rem expectedSize (DecodedBlockSize es) =? 0) then
    Done (FatalReadCloser (ErrNotFactor expectedSize (DecodedBlockSize es)))
  else
    match checkMBM mbm with
    | Some e => Done (FatalReadCloser e)
    | None =>
      if DecodedBlockSize es <? 0 then Panic MakesliceCapOutOfRange
      else
        Done (Decoded
          {| readers := rs; scheme := es;
             stripeReader := NewStripeReader rs es mbm;
             outbuf := []; err := None; currentStripe := 0;
             expectedStripes := Z.quot expectedSize (DecodedBlockSize es);
             closeDone := false; closeErr := None; srCloses := 0 |})
    end.

(** The piece streams of the map given to [DecodeReaders], as they are
    once the returned reader has reached state [r]: a [decodedReader]
    holds the map, a fatal reader holds no stream and leaves the caller's
    map as it was. *)
Fixpoint streamsOf (rs : gmap Z pieceStream) (r : Reader)
    : gmap Z pieceStream :=
  match r with
  | Fatal _ => rs
  | Decoded dr => readers dr
  | Limited r' _ => streamsOf rs r'
  end.

(** The ghost count of [stripeReader.Close] calls behind a reader; a
    fatal reader has no stripe reader. *)
Fixpoint srClosesOf (r : Reader) : nat :=
  match r with
  | Fatal _ => 0%nat
  | Decoded dr => srCloses dr
  | Limited r' _ => srClosesOf r'
  end.

(** A consumer's calls, and what each call returned. *)
Inductive op : Type :=
  | OpRead (plen : nat)
  | OpClose (its : list (Z * pieceStream)).

Inductive event : Type :=
  | EvRead (data : list byte) (e : option error)
  | EvClose (res : outcome (option error)).

Definition step (r : Reader) (o : op) : Reader * event :=
  match o with
  | OpRead plen => let '(r', (d, e)) := rdRead r plen in (r', EvRead d e)
  | OpClose its => let '(r', res) := rdClose r its in (r', EvClose res)
  end.

(** Run a sequence of calls; a panic of [Close] is recorded and the run
    goes on (the caller recovered). *)
Fixpoint run (r : Reader) (ops : list op) : Reader * list event :=
  match ops with
  | [] => (r, [])
  | o :: ops' =>
    let '(r', ev) := step r o in
    let '(r'', evs) := run r' ops' in
    (r'', ev :: evs)
  end.

(** ** decodedRanger *)

(** A piece source of the range variant ([ranger.Ranger]): its size and
    what [Range(ctx, offset, length)] returns. *)
Record pieceRanger := {
  rr_Size : Z;
  rr_Range : Z → Z → pieceStream + error;
}.

Record decodedRanger := {
  es : ErasureScheme;
  rrs : gmap Z pieceRanger;
  inSize : Z;
  mbm : Z;
}.

(** What [Decode] returns as a [ranger.Ranger]: [ranger.ByteRanger(nil)]
    or a [*decodedRanger]. *)
Inductive Ranger : Type :=
  | ByteRanger (b : list byte)
  | DecodedRanger (dr : decodedRanger).

(** The size loop of [Decode], over the iteration sequence [its] of the
    map; [size] starts at the sentinel [-1]. *)
Fixpoint sizeLoop (its : list (Z * pieceRanger)) (size : Z) : Z + error :=
  match its with
  | [] => inl size
  | (_, rr) :: its' =>
    if size =? -1 then sizeLoop its' (rr_Size rr)
    else if negb (size =? rr_Size rr) then inr ErrSizesDontMatch
    else sizeLoop its' size
  end.

(** [func Decode(rrs, es, mbm) (ranger.Ranger, error)]. *)
Definition Decode (its : list (Z * pieceRanger)) (rrs0 : gmap Z pieceRanger)
    (es0 : ErasureScheme) (mbm0 : Z) : outcome (Ranger + error) :=
  match checkMBM mbm0 with
  | Some e => Done (inr e)
  | None =>
    if Z.of_nat (size rrs0) <? RequiredCount es0 then
      Done (inr ErrNotEnoughReaders)
    else
      match sizeLoop its (-1) with
      | inr e => Done (inr e)
      | inl sz =>
        if sz =? -1 then Done (inl (ByteRanger []))
        else if EncodedBlockSize es0 =? 0 then Panic DivideByZero
        else if negb (Z.rem sz (EncodedBlockSize es0) =? 0) then
          Done (inr (ErrInvalidCombo sz (EncodedBlockSize es0)))
        else
          Done (inl (DecodedRanger
            {| es := es0; rrs := rrs0; inSize := sz; mbm := mbm0 |}))
      end
  end.

(** [func (dr *decodedRanger) Size() int64]. *)
Definition Size (dr : decodedRanger) : outcome Z :=
  if EncodedBlockSize (es dr) =? 0 then Panic DivideByZero
  else
    let blocks := wrap64 (Z.quot (inSize dr) (EncodedBlockSize (es dr))) in
    Done (wrap64 (blocks * DecodedBlockSize (es dr))).

(** Modelled from the spec: [calcEncompassingBlocks] is not among the
    sources. "Compute the minimal block window [first_block, first_block
    + block_count) that covers [offset, offset + length) in the decoded
    stream (block_count = ceil((offset + length) / decoded_block_size) −
    floor(offset / decoded_block_size); when length == 0, block_count ==
    0 ...)". *)
Definition calcEncompassingBlocks (offset length blockSize : Z) : Z * Z :=
  let firstBlock := offset / blockSize in
  if length =? 0 then (firstBlock, 0)
  else (firstBlock, - ((- (offset + length)) / blockSize) - firstBlock).

(** [ioutil.Discard.ReadFrom(src)] of the Go library, which [io.Copy]
    calls: read into an 8192-byte scratch buffer until an error; EOF is a
    success. [fuel] bounds the iterations of the loop. *)
Fixpoint discardReadFrom (fuel : nat) (src : Reader) (n : Z)
    : option (Reader * (Z * option error)) :=
  match fuel with
  | O => None
  | S fuel' =>
    let '(src', (data, e)) := rdRead src discardBufSize in
    let n' := n + Z.of_nat (length data) in
    match e with
    | Some EOF => Some (src', (n', None))
    | Some e' => Some (src', (n', Some e'))
    | None => discardReadFrom fuel' src' n'
    end
  end.

(** [io.CopyN(ioutil.Discard, src, n)] of the Go library:
    [Copy(dst, LimitReader(src, n))], then "written == n iff err == nil".
    The state of [src] after the copy is returned as well. *)
Definition CopyN (fuel : nat) (src : Reader) (n : Z)
    : option (Reader * (Z * option error)) :=
  match discardReadFrom fuel (Limited src n) 0 with
  | None => None
  | Some (lr, (written, e)) =>
    let src' := match lr with Limited r _ => r | _ => lr end in
    if written =? n then Some (src', (n, None))
    else if (written <? n) && bool_decide (e = None) then
      Some (src', (written, Some EOF))
    else Some (src', (written, e))
  end.

(** [func (dr *decodedRanger) Range(ctx, offset, length)
    (io.ReadCloser, error)]. The goroutines each store one result under
    their own key, so the readers map does not depend on their
    scheduling. [None]: the discard loop ran out of [fuel]. *)
Definition Range (fuel : nat) (dr : decodedRanger) (offset length : Z)
    : option (outcome (Reader + error)) :=
  let dbs := DecodedBlockSize (es dr) in
  let ebs := EncodedBlockSize (es dr) in
  let '(firstBlock, blockCount) :=
    calcEncompassingBlocks offset length dbs in
  let rs : gmap Z pieceStream :=
    (λ rr, match rr_Range rr (wrap64 (firstBlock * ebs))
                   (wrap64 (blockCount * ebs)) with
           | inl r => r
           | inr e => fatalPiece e
           end) <$> rrs dr in
  match DecodeReaders rs (es dr) (wrap64 (blockCount * dbs)) (mbm dr) with
  | Panic p => Some (Panic p)
  | Done r =>
    match CopyN fuel r (wrap64 (offset - wrap64 (firstBlock * dbs))) with
    | None => None
    | Some (_, (_, Some e)) => Some (Done (inr (ErrWrap e)))
    | Some (r', (_, None)) => Some (Done (inl (LimitReadCloser r' length)))
    end
  end.

End DecodedReader.

Arguments decodedReader SR : clear implicits.
Arguments Reader SR : clear implicits.

(** ** Observations and invariants the statements use *)

(** The decoded stream whose stripe [i] is [block i], up to stripe [k]. *)
Definition decodedStream (block : Z → list byte) (k : nat) : list byte :=
  flat_map (λ i, block (Z.of_nat i)) (seq 0 k).

(** The bytes a sequence of calls delivered. *)
Definition bytesRead (evs : list event) : list byte :=
  flat_map (λ ev, match ev with EvRead d _ => d | EvClose _ => [] end) evs.

(** How many of the caller's buffers have room for a byte. *)
Definition countPos (ps : list nat) : nat :=
  length (filter (λ p, (0 < p)%nat) ps).

Section Invariants.
Context {SR : Type} `{!StripeReaderOps SR}.

(** Once [err] is set, [outbuf] is empty. *)
Definition errEmpty (r : Reader SR) : Prop :=
  match r with
  | Decoded dr => err dr ≠ None → outbuf dr = []
  | _ => True
  end.

(** The reader only ever answers [e] from now on. *)
Definition stuck (e : error) (r : Reader SR) : Prop :=
  match r with
  | Fatal e' => e' = e
  | Decoded dr => err dr = Some e ∧ outbuf dr = []
  | Limited _ _ => False
  end.

(** A reader as [DecodeReaders] returns it, not wrapped in a limit. *)
Definition plain (r : Reader SR) : Prop :=
  match r with Limited _ _ => False | _ => True end.

(** A reader in the middle of the stream of [n] stripes: [k] stripes
    were fetched, the bytes [pre] were delivered, [outbuf] holds the rest
    of the fetched stripes. *)
Definition mid (Inv : SR → Prop) (block : Z → list byte) (n : Z)
    (k : nat) (pre : list byte) (dr : decodedReader SR) : Prop :=
  err dr = None ∧ Inv (stripeReader dr) ∧ expectedStripes dr = n ∧
  currentStripe dr = Z.of_nat k ∧ Z.of_nat k ≤ n ∧
  pre ++ outbuf dr = decodedStream block k.

(** The latch of [Close]: not yet closed, with the map [rs] as given; or
    closed with the aggregate [agg], every stream of [rs] and the stripe
    reader having received one [Close]. *)
Definition closedWith (agg : option error) (rs : gmap Z pieceStream)
    (r : Reader SR) : Prop :=
  match r with
  | Decoded dr =>
    closeDone dr = true ∧ closeErr dr = agg ∧
    readers dr = (λ r, (psClose r).1) <$> rs ∧ srCloses dr = 1%nat
  | _ => False
  end.

Definition stillOpen (rs : gmap Z pieceStream) (r : Reader SR) : Prop :=
  match r with
  | Decoded dr =>
    closeDone dr = false ∧ readers dr = rs ∧ srCloses dr = 0%nat
  | _ => False
  end.
End Invariants.

(** ** Test doubles

    The scenarios of the scheme [(k = 2, n = 4)] with 4-byte blocks and
    "a trivial identity decode on any two replicated shares". *)

(** A stripe reader over replicated shares: the decoded stream is the
    bytes of a piece, stripe [num] is its [num]-th block; a block that is
    not fully there is an error, returned with a nil slice. *)
Record replicaReader := {
  rep_data : list byte;
  rep_bs : nat;
  rep_closeErr : option error;
}.

Definition repReadStripe (sr : replicaReader) (num : Z) (p : list byte)
    : replicaReader * (list byte * option error) :=
  let blk := take (rep_bs sr) (drop (Z.to_nat num * rep_bs sr) (rep_data sr)) in
  if bool_decide (0 <= num) && bool_decide (length blk = rep_bs sr) then
    (sr, (p ++ blk, None))
  else (sr, ([], Some (ErrOther "not enough pieces"))).

#[export] Instance replicaOps : StripeReaderOps replicaReader := {|
  ReadStripe := repReadStripe;
  srClose sr := (sr, rep_closeErr sr);
|}.

(** The first healthy piece of the map supplies the replicated data. *)
Definition repNew (rs : gmap Z pieceStream) (es : ErasureScheme) (mbm : Z)
    : replicaReader :=
  {| rep_data :=
       match filter (λ kv, ps_readErr kv.2 = None) (map_to_list rs) with
       | (_, r) :: _ => ps_bytes r
       | [] => []
       end;
     rep_bs := Z.to_nat (DecodedBlockSize es);
     rep_closeErr := None |}.

(** The source documents "If set to 0, the minimum possible memory will be
    used": a budget check that refuses exactly the negative budgets. *)
Definition checkNonNeg (mbm : Z) : option error :=
  if mbm <? 0 then Some (ErrOther "negative max buffer memory") else None.

Definition scheme24 : ErasureScheme :=
  {| EncodedBlockSize := 4; DecodedBlockSize := 4;
     RequiredCount := 2; TotalCount := 4 |}.

Definition bytesOf (s : string) : list byte := String.list_byte_of_string s.

(** A healthy stream over [s] whose [Close] returns [ce]. *)
Definition streamOf (s : string) (ce : option error) : pieceStream :=
  {| ps_bytes := bytesOf s; ps_readErr := None; ps_closeErr := ce;
     ps_closed := 0 |}.

(** A range-addressable piece over [s]: the window as a healthy stream. *)
Definition rangerOf (s : string) : pieceRanger :=
  {| rr_Size := Z.of_nat (length (bytesOf s));
     rr_Range off len :=
       inl {| ps_bytes := take (Z.to_nat len) (drop (Z.to_nat off) (bytesOf s));
              ps_readErr := None; ps_closeErr := None; ps_closed := 0 |} |}.

(** Two replicas of an 8-byte stream under the keys 0 and 1. *)
Definition pieces01 : gmap Z pieceStream :=
  {[ 0 := streamOf "ABCDEFGH" None; 1 := streamOf "ABCDEFGH" None ]}.

Definition rangers01 : gmap Z pieceRanger :=
  {[ 0 := rangerOf "ABCDEFGH"; 1 := rangerOf "ABCDEFGH" ]}.

(** Two sources of size zero. *)
Definition zeroRangers01 : gmap Z pieceRanger :=
  {[ 0 := rangerOf ""; 1 := rangerOf "" ]}.

(** One piece under the key 5, as when only the sixth piece of a stripe
    could be fetched. *)
Definition pieceAt5 : gmap Z pieceStream := {[ 5 := streamOf "ABCD" None ]}.

(** One piece under the key 1 whose [Close] fails. *)
Definition pieceAt1 : gmap Z pieceStream :=
  {[ 1 := streamOf "ABCD" (Some (ErrOther "close failed")) ]}.

(** ** The bolt-backed key/value client *)

Module Bolt.

(** The part of github.com/boltdb/bolt the client calls, as that library
    documents it. Keys and bucket names are byte strings; a Go [nil]
    slice or [nil] bucket pointer is [None]. *)
Abbreviation bucket := (gmap string (list byte)).

Record DB := {
  db_opened : bool;
  db_readOnly : bool;
  db_buckets : gmap string bucket;
}.

Definition ErrDatabaseNotOpen := ErrOther "database not open".
Definition ErrDatabaseReadOnly := ErrOther "database is in read-only mode".
Definition ErrBucketNameRequired := ErrOther "bucket name required".
Definition ErrKeyRequired := ErrOther "key required".
Definition ErrKeyTooLarge := ErrOther "key too large".
Definition ErrValueTooLarge := ErrOther "value too large".
Definition MaxKeySize : Z := 32768.
Definition MaxValueSize : Z := 2 ^ 31 - 2.

(** [tx.Bucket(name)]: "Returns nil if the bucket does not exist." *)
Definition Tx_Bucket (tx : gmap string bucket) (name : string)
    : option string :=
  match tx !! name with Some _ => Some name | None => None end.

(** [tx.CreateBucketIfNotExists(name)]. *)
Definition Tx_CreateBucketIfNotExists (tx : gmap string bucket)
    (name : string) : gmap string bucket * (option string * option error) :=
  if bool_decide (name = "") then (tx, (None, Some ErrBucketNameRequired))
  else match tx !! name with
       | Some _ => (tx, (Some name, None))
       | None => (<[name := ∅]> tx, (Some name, None))
       end.

(** [b.Get(key)]: "Returns a nil value if the key does not exist"; the
    method dereferences its receiver. *)
Definition Bucket_Get (tx : gmap string bucket) (b : option string)
    (key : string) : outcome (option (list byte)) :=
  match b with
  | None => Panic NilDereference
  | Some name => Done (tx !! name ≫= λ m, m !! key)
  end.

(** [b.Put(key, value)]. *)
Definition Bucket_Put (tx : gmap string bucket) (b : option string)
    (key : string) (value : list byte)
    : outcome (gmap string bucket * option error) :=
  match b with
  | None => Panic NilDereference
  | Some name =>
    if bool_decide (key = "") then Done (tx, Some ErrKeyRequired)
    else if MaxKeySize <? Z.of_nat (String.length key) then
      Done (tx, Some ErrKeyTooLarge)
    else if MaxValueSize <? Z.of_nat (length value) then
      Done (tx, Some ErrValueTooLarge)
    else Done (alter (insert key value) name tx, None)
  end.

(** [db.Update(fn)]: begin a writable transaction, run [fn], commit when
    it returns nil and roll back when it returns an error or panics.
    [a] is the state of the variables the closure captures. *)
Definition DB_Update {A} (d : DB) (a : A)
    (fn : gmap string bucket → A → outcome (gmap string bucket * A * option error))
    : DB * outcome (A * option error) :=
  if negb (db_opened d) then (d, Done (a, Some ErrDatabaseNotOpen))
  else if db_readOnly d then (d, Done (a, Some ErrDatabaseReadOnly))
  else match fn (db_buckets d) a with
       | Panic p => (d, Panic p)
       | Done (tx, a', Some e) => (d, Done (a', Some e))
       | Done (tx, a', None) =>
         ({| db_opened := db_opened d; db_readOnly := db_readOnly d;
             db_buckets := tx |}, Done (a', None))
       end.

(** The struct; the logger is left out. *)
Record boltClient := {
  db : DB;
  Path : string;
  Bucket : string;
}.

Definition set_db (c : boltClient) (d : DB) : boltClient :=
  {| db := d; Path := Path c; Bucket := Bucket c |}.

(** [func (c *boltClient) Put(key, value) error]. *)
Definition Put (c : boltClient) (key : string) (value : list byte)
    : boltClient * outcome (option error) :=
  let '(d, res) :=
    DB_Update (db c) tt (λ tx _,
      let '(tx', (b, e)) := Tx_CreateBucketIfNotExists tx (Bucket c) in
      match e with
      | Some e' => Done (tx', tt, Some e')
      | None =>
        match Bucket_Put tx' b key value with
        | Panic p => Panic p
        | Done (tx'', e'') => Done (tx'', tt, e'')
        end
      end) in
  (set_db c d,
   match res with Panic p => Panic p | Done (_, e) => Done e end).

(** [func (c *boltClient) Get(pathKey) (storage.Value, error)]; the
    captured variable is [pointerBytes]. *)
Definition Get (c : boltClient) (pathKey : string)
    : boltClient * outcome (option (list byte) * option error) :=
  let '(d, res) :=
    DB_Update (db c) (None : option (list byte)) (λ tx pointerBytes,
      let b := Tx_Bucket tx (Bucket c) in
      match Bucket_Get tx b pathKey with
      | Panic p => Panic p
      | Done v => Done (tx, v, None)
      end) in
  (set_db c d,
   match res with
   | Panic p => Panic p
   | Done (_, Some e) => Done (None, Some e)
   | Done (pointerBytes, None) => Done (pointerBytes, None)
   end).

(** [NewClient] on a database file that opens: the client of a store
    with the given buckets. *)
Definition clientOf (bs : gmap string bucket) (name : string) : boltClient :=
  {| db := {| db_opened := true; db_readOnly := false; db_buckets := bs |};
     Path := "bolt.db"; Bucket := name |}.

(** [b.Delete(key)]: "If the key does not exist then nothing is done and
    a nil error is returned"; the method dereferences its receiver. *)
Definition Bucket_Delete (tx : gmap string bucket) (b : option string)
    (key : string) : outcome (gmap string bucket * option error) :=
  match b with
  | None => Panic NilDereference
  | Some name => Done (alter (delete key) name tx, None)
  end.

(** [func (c *boltClient) Delete(pathKey) error]. *)
Definition Delete (c : boltClient) (pathKey : string)
    : boltClient * outcome (option error) :=
  let '(d, res) :=
    DB_Update (db c) tt (λ tx _,
      match Bucket_Delete tx (Tx_Bucket tx (Bucket c)) pathKey with
      | Panic p => Panic p
      | Done (tx', e) => Done (tx', tt, e)
      end) in
  (set_db c d,
   match res with Panic p => Panic p | Done (_, e) => Done e end).

(** [db.Close()]: the database is no longer open; nil is returned. *)
Definition DB_Close (d : DB) : DB * option error :=
  ({| db_opened := false; db_readOnly := db_readOnly d;
      db_buckets := db_buckets d |}, None).

(** [func (c *boltClient) Close() error]. *)
Definition Close (c : boltClient) : boltClient * option error :=
  let '(d, e) := DB_Close (db c) in (set_db c d, e).

(** "Keys are stored in byte-sorted order within a bucket": the keys of a
    bucket as a cursor walks them. *)
Definition sortedKeys (m : bucket) : list string :=
  merge_sort String.le (map_to_list m).*1.

(** A [*bolt.Cursor]: the keys of its bucket in order and the index of
    the item it stands on ([None]: on no item). *)
Record Cursor := {
  cur_keys : list string;
  cur_pos : option nat;
}.

(** [b.Cursor()]; the method dereferences its receiver. *)
Definition Bucket_Cursor (tx : gmap string bucket) (b : option string)
    : outcome Cursor :=
  match b with
  | None => Panic NilDereference
  | Some name =>
    Done {| cur_keys := sortedKeys (default ∅ (tx !! name)); cur_pos := None |}
  end.

(** Move to index [i]; a nil key when there is no such item. *)
Definition Cursor_at (cur : Cursor) (i : nat) : Cursor * option string :=
  match cur_keys cur !! i with
  | Some k => ({| cur_keys := cur_keys cur; cur_pos := Some i |}, Some k)
  | None => ({| cur_keys := cur_keys cur; cur_pos := None |}, None)
  end.

(** [cur.First()]: "If the bucket is empty then a nil key and value are
    returned." *)
Definition Cursor_First (cur : Cursor) : Cursor * option string :=
  Cursor_at cur 0.

(** [cur.Last()]. *)
Definition Cursor_Last (cur : Cursor) : Cursor * option string :=
  match length (cur_keys cur) with
  | O => ({| cur_keys := cur_keys cur; cur_pos := None |}, None)
  | S n => Cursor_at cur n
  end.

(** [cur.Next()]: "If the cursor is at the end of the bucket then a nil
    key and value are returned." *)
Definition Cursor_Next (cur : Cursor) : Cursor * option string :=
  match cur_pos cur with
  | Some i => Cursor_at cur (S i)
  | None => (cur, None)
  end.

(** [cur.Prev()]: "If the cursor is at the beginning of the bucket then a
    nil key and value are returned." *)
Definition Cursor_Prev (cur : Cursor) : Cursor * option string :=
  match cur_pos cur with
  | Some (S i) => Cursor_at cur i
  | _ => ({| cur_keys := cur_keys cur; cur_pos := None |}, None)
  end.

(** [cur.Seek(seek)]: "If the key does not exist then the next key is
    used. If no keys follow, a nil key is returned." *)
Definition Cursor_Seek (cur : Cursor) (seek : string)
    : Cursor * option string :=
  match list_find (String.le seek) (cur_keys cur) with
  | Some (i, k) => ({| cur_keys := cur_keys cur; cur_pos := Some i |}, Some k)
  | None => ({| cur_keys := cur_keys cur; cur_pos := None |}, None)
  end.

(** [func firstOrLast(reverseList, cur) func() ([]byte, []byte)]; the
    method value is a function of the cursor's state. *)
Definition firstOrLast (reverseList : bool)
    : Cursor → Cursor * option string :=
  if reverseList then Cursor_Last else Cursor_First.

(** [func prevOrNext(reverseList, cur) func() ([]byte, []byte)]. *)
Definition prevOrNext (reverseList : bool)
    : Cursor → Cursor * option string :=
  if reverseList then Cursor_Prev else Cursor_Next.

(** The loop of [listHelper]:
    [for ; k != nil; k, _ = iterate() { paths = append(paths, k); if limit
    > 0 && int(limit) == int(len(paths)) { break } }]. A cursor walks each
    item at most once, so the loop ends within [len(keys) + 1] rounds:
    [fuel] is that bound. *)
Fixpoint listLoop (fuel : nat) (iterate : Cursor → Cursor * option string)
    (cur : Cursor) (k : option string) (paths : list string) (limit : Z)
    : list string :=
  match fuel with
  | O => paths
  | S fuel' =>
    match k with
    | None => paths
    | Some key =>
      let paths' := paths ++ [key] in
      if (0 <? limit) && (limit =? Z.of_nat (length paths')) then paths'
      else
        let '(cur', k') := iterate cur in
        listLoop fuel' iterate cur' k' paths' limit
    end
  end.

(** [func (c *boltClient) listHelper(reverseList, startingKey, limit)
    (storage.Keys, error)]; [startingKey = None] is the nil key, the
    captured variable is [paths]. *)
Definition listHelper (c : boltClient) (reverseList : bool)
    (startingKey : option string) (limit : Z)
    : boltClient * outcome (list string * option error) :=
  let '(d, res) :=
    DB_Update (db c) ([] : list string) (λ tx paths,
      match Bucket_Cursor tx (Tx_Bucket tx (Bucket c)) with
      | Panic p => Panic p
      | Done cur =>
        let start := firstOrLast reverseList in
        let iterate := prevOrNext reverseList in
        let '(cur', k) :=
          match startingKey with
          | None => start cur
          | Some key => Cursor_Seek cur key
          end in
        Done (tx,
              listLoop (S (length (cur_keys cur))) iterate cur' k paths limit,
              None)
      end) in
  (set_db c d, res).

(** [func (c *boltClient) List(startingKey, limit)]. *)
Definition List (c : boltClient) (startingKey : option string) (limit : Z)
    : boltClient * outcome (list string * option error) :=
  listHelper c false startingKey limit.

(** [func (c *boltClient) ReverseList(startingKey, limit)]. *)
Definition ReverseList (c : boltClient) (startingKey : option string)
    (limit : Z) : boltClient * outcome (list string * option error) :=
  listHelper c true startingKey limit.

End Bolt.
(** ** More test doubles *)

(** A bucket of five keys, and a client of a store that holds it. *)
Definition sampleBucket : gmap string (list byte) :=
  {[ "b" := bytesOf "1"; "a" := bytesOf "2"; "d" := bytesOf "3";
     "c" := bytesOf "4"; "ab" := bytesOf "5" ]}.

Definition sampleClient : Bolt.boltClient :=
  Bolt.clientOf {[ "pointers" := sampleBucket ]} "pointers".

(** A client of a store in which no bucket was created yet. *)
Definition freshClient : Bolt.boltClient := Bolt.clientOf ∅ "pointers".

(** A piece source whose every sub-range request fails. *)
Definition brokenRanger : pieceRanger :=
  {| rr_Size := 8; rr_Range _ _ := inr (ErrOther "piece unavailable") |}.

Definition brokenRangers01 : gmap Z pieceRanger :=
  {[ 0 := brokenRanger; 1 := brokenRanger ]}.

(** Two sources that disagree on their size. *)
Definition unequalRangers01 : gmap Z pieceRanger :=
  {[ 0 := rangerOf "ABCDEFGH"; 1 := rangerOf "ABCD" ]}.

(** Two replicas of a 4-byte stream: one stripe of the scheme. *)
Definition shortPieces01 : gmap Z pieceStream :=
  {[ 0 := streamOf "ABCD" None; 1 := streamOf "ABCD" None ]}.

(** Two pieces under the keys 0 and 1 whose [Close] both fail. *)
Definition closeFailPieces01 : gmap Z pieceStream :=
  {[ 0 := streamOf "ABCD" (Some (ErrOther "close 0"));
     1 := streamOf "ABCD" (Some (ErrOther "close 1")) ]}.

(** The keys a listing walks when no limit stops it, out of the keys
    [ks] of the bucket in cursor order: from the first or the last key, or
    from the key [Seek] finds. *)
Definition walked (reverseList : bool) (startingKey : option string)
    (ks : list string) : list string :=
  match startingKey, reverseList with
  | None, false => ks
  | None, true => reverse ks
  | Some s, false =>
    match list_find (String.le s) ks with
    | Some (i, _) => drop i ks
    | None => []
    end
  | Some s, true =>
    match list_find (String.le s) ks with
    | Some (i, _) => reverse (take (S i) ks)
    | None => []
    end
  end.

(** * Facts *)

Lemma wrap64_id z : int64_range z → wrap64 z = z.
Proof.
  unfold int64_range, wrap64. intros Hz.
  rewrite Z.mod_small; lia.
Qed.

Section DecodedReaderFacts.
Context {SR : Type} `{!StripeReaderOps SR}.
Variable checkMBM : Z → option error.
Variable NewStripeReader : gmap Z pieceStream → ErasureScheme → Z → SR.

(** What [drain] computes: the first [n] bytes go out, the rest stay. *)
Lemma drain_spec (dr : decodedReader SR) plen :
  let n := Nat.min plen (length (outbuf dr)) in
  drain dr plen =
    (set_read dr (stripeReader dr) (drop n (outbuf dr)) (err dr)
       (currentStripe dr), (take n (outbuf dr), None)).
Proof.
  intros n. unfold drain, copy. rewrite length_replicate. fold n.
  assert (Hn : (n ≤ length (outbuf dr))%nat) by (subst n; lia).
  clearbody n. rewrite length_drop.
  replace (Nat.min (length (outbuf dr)) (length (outbuf dr) - n))%nat
    with (length (outbuf dr) - n)%nat by lia.
  f_equal.
  - f_equal.
    rewrite take_app_le by (rewrite length_take, length_drop; lia).
    rewrite take_take, take_ge; [done|]. rewrite length_drop. lia.
  - f_equal. rewrite take_app_le by (rewrite length_take; lia).
    rewrite take_take. f_equal. lia.
Qed.

(** *** Construction failures *)

(** C7: when [expectedSize] is negative, or is not a multiple of the
    (non-zero) decoded block size, or the memory budget is refused by
    [checkMBM], [DecodeReaders] returns the fatal reader of the
    corresponding error: every [Read] of it, so the first one, returns
    that error with no bytes, its [Close] returns nil and changes
    nothing, and the piece streams of [rs] are left as they were. *)
Theorem DecodeReaders_contract_violation rs es0 S mbm0 :
  S < 0 ∨ (DecodedBlockSize es0 ≠ 0 ∧
           (Z.rem S (DecodedBlockSize es0) ≠ 0 ∨ checkMBM mbm0 ≠ None)) →
  ∃ e, DecodeReaders checkMBM NewStripeReader rs es0 S mbm0 = Done (Fatal e)
    ∧ (S < 0 → e = ErrNegativeExpectedSize)
    ∧ (0 ≤ S → Z.rem S (DecodedBlockSize es0) ≠ 0 →
       e = ErrNotFactor S (DecodedBlockSize es0))
    ∧ (0 ≤ S → Z.rem S (DecodedBlockSize es0) = 0 → checkMBM mbm0 = Some e)
    ∧ (∀ plen, rdRead (Fatal e : Reader SR) plen = (Fatal e, ([], Some e)))
    ∧ (∀ its, rdClose (Fatal e : Reader SR) its = (Fatal e, Done None))
    ∧ streamsOf rs (Fatal e : Reader SR) = rs.
Proof.
  intros Hviol. unfold DecodeReaders, FatalReadCloser.
  destruct (Z.ltb_spec S 0) as [Hneg|Hnn].
  { eexists. split; [reflexivity|]. split_and!; try done; lia. }
  destruct Hviol as [?|[Hdbs Hviol]]; [lia|].
  destruct (Z.eqb_spec (DecodedBlockSize es0) 0) as [?|_]; [done|].
  destruct (Z.eqb_spec (Z.rem S (DecodedBlockSize es0)) 0) as [Hrem|Hrem];
    simpl.
  - destruct Hviol as [?|Hmbm]; [done|].
    destruct (checkMBM mbm0) as [e|] eqn:He; [|done].
    exists e. split_and!; try done; lia.
  - eexists. split; [reflexivity|]. split_and!; try done; lia.
Qed.

(** *** Sticky errors *)

Section Sticky.
(** The contract of [ReadStripe] the claim rests on: an error comes
    with no bytes. *)
Hypothesis ReadStripe_error_nil : ∀ (sr : SR) num p sr' b e,
  ReadStripe sr num p = (sr', (b, Some e)) → b = [].

Lemma Read_errEmpty dr plen dr' d e :
  errEmpty (Decoded dr) → Read dr plen = (dr', (d, e)) →
  errEmpty (Decoded dr') ∧ (∀ e', e = Some e' → d = [] ∧ stuck e' (Decoded dr')).
Proof.
  unfold Read. simpl. intros Hinv.
  destruct (Z.leb_spec (Z.of_nat (length (outbuf dr))) 0) as [Hemp|Hne].
  - assert (Hob : outbuf dr = []) by (destruct (outbuf dr); simpl in *; [done|lia]).
    destruct (err dr) as [e0|] eqn:He0.
    { intros [= <- <- <-]. split; [done|]. by intros e' [= <-]. }
    destruct (currentStripe dr >=? expectedStripes dr).
    { intros [= <- <- <-]. simpl. split; [done|]. by intros e' [= <-]. }
    destruct (ReadStripe _ _ _) as [sr' [ob [e1|]]] eqn:Hrs.
    + apply ReadStripe_error_nil in Hrs as ->.
      intros [= <- <- <-]. simpl. split; [done|]. by intros e' [= <-].
    + rewrite drain_spec. simpl. intros [= <- <- <-]. simpl. split; done.
  - rewrite drain_spec. intros [= <- <- <-]. simpl. split; [|done].
    intros Herr. apply Hinv in Herr. rewrite Herr in Hne. simpl in Hne. lia.
Qed.

Lemma step_errEmpty r o r' ev :
  plain r → errEmpty r → step r o = (r', ev) →
  plain r' ∧ errEmpty r' ∧
  (∀ d e, ev = EvRead d (Some e) → d = [] ∧ stuck e r').
Proof.
  destruct r as [e0|dr|]; [| |done]; intros _ Hinv; destruct o as [plen|its]; simpl.
  - intros [= <- <-]. split; [done|]. split; [done|].
    by intros d e [= <- <-].
  - intros [= <- <-]. done.
  - destruct (Read dr plen) as [dr' [d e]] eqn:HR. intros [= <- <-].
    destruct (Read_errEmpty _ _ _ _ _ Hinv HR) as [H1 H2].
    split; [done|]. split; [done|].
    intros d' e' [= <- ->]. by apply H2.
  - destruct (Close dr its) as [dr' res] eqn:HC. intros [= <- <-].
    split; [done|]. split; [|done].
    unfold Close in HC. destruct (closeDone dr); [by injection HC as <- _|].
    destruct (closeReaders _ _ _) as [rs' [errs|p]].
    + destruct (srClose _) as [sr' e]. by injection HC as <- _.
    + by injection HC as <- _.
Qed.

Lemma step_stuck e r o r' ev :
  stuck e r → step r o = (r', ev) →
  stuck e r' ∧ (∀ d e', ev = EvRead d e' → d = [] ∧ e' = Some e).
Proof.
  destruct r as [e0|dr|]; [| |done]; destruct o as [plen|its]; simpl.
  - intros -> [= <- <-]. split; [done|]. by intros d e' [= <- <-].
  - intros -> [= <- <-]. done.
  - intros [He Hob]. unfold Read. rewrite Hob, He. simpl.
    intros [= <- <-]. split; [done|]. by intros d e' [= <- <-].
  - intros [He Hob]. destruct (Close dr its) as [dr' res] eqn:HC.
    intros [= <- <-]. split; [|done].
    unfold Close in HC. destruct (closeDone dr); [by injection HC as <- _|].
    destruct (closeReaders _ _ _) as [rs' [errs|p]].
    + destruct (srClose _) as [sr' e1]. by injection HC as <- _.
    + by injection HC as <- _.
Qed.

Lemma run_stuck e ops : ∀ r r' evs,
  stuck e r → run r ops = (r', evs) →
  ∀ j d e', evs !! j = Some (EvRead d e') → d = [] ∧ e' = Some e.
Proof.
  induction ops as [|o ops IH]; simpl; intros r r' evs Hst.
  - by intros [= <- <-] j d e'.
  - destruct (step r o) as [r1 ev] eqn:Hstep.
    destruct (run r1 ops) as [r2 evs'] eqn:Hrun. intros [= <- <-].
    destruct (step_stuck _ _ _ _ _ Hst Hstep) as [Hst1 Hev].
    intros [|j] d e'; simpl.
    + intros [= ->]. by eapply Hev.
    + by eapply IH.
Qed.

Lemma run_sticky ops : ∀ r r' evs,
  plain r → errEmpty r → run r ops = (r', evs) →
  ∀ i j d e d' e', (i < j)%nat →
    evs !! i = Some (EvRead d (Some e)) →
    evs !! j = Some (EvRead d' e') →
    d = [] ∧ d' = [] ∧ e' = Some e.
Proof.
  induction ops as [|o ops IH]; simpl; intros r r' evs Hpl Hinv.
  - by intros [= <- <-] i j d e d' e' _.
  - destruct (step r o) as [r1 ev] eqn:Hstep.
    destruct (run r1 ops) as [r2 evs'] eqn:Hrun. intros [= <- <-].
    destruct (step_errEmpty _ _ _ _ Hpl Hinv Hstep) as (Hpl1 & Hinv1 & Hev).
    intros [|i] [|j] d e d' e' Hij; try lia; simpl.
    + intros [= ->] Hj. destruct (Hev _ _ eq_refl) as [-> Hst].
      split; [done|]. by eapply run_stuck.
    + eapply IH; eauto. lia.
Qed.

(** C6: on a reader returned by [DecodeReaders], in any sequence of
    [Read] and [Close] calls, once a [Read] returned the error [e] (EOF
    included), it returned no bytes and every later [Read] returns no
    bytes and [e] again; this given that [ReadStripe] returns no bytes
    with an error. *)
Theorem Read_error_sticky rs es0 S mbm0 r0 ops r' evs :
  DecodeReaders checkMBM NewStripeReader rs es0 S mbm0 = Done r0 →
  run r0 ops = (r', evs) →
  ∀ i j d e d' e', (i < j)%nat →
    evs !! i = Some (EvRead d (Some e)) →
    evs !! j = Some (EvRead d' e') →
    d = [] ∧ d' = [] ∧ e' = Some e.
Proof.
  intros HD. apply run_sticky.
  - unfold DecodeReaders, FatalReadCloser in HD.
    repeat (case_match; simplify_eq); done.
  - unfold DecodeReaders, FatalReadCloser in HD.
    repeat (case_match; simplify_eq); done.
Qed.
End Sticky.


(** *** Length exactness *)

Lemma run_stuck_reads e ps : ∀ (r r' : Reader SR) evs,
  stuck e r → run r (OpRead <$> ps) = (r', evs) →
  evs = replicate (length ps) (EvRead [] (Some e)).
Proof.
  induction ps as [|p ps IH]; simpl; intros r r' evs Hst.
  - by intros [= <- <-].
  - destruct (rdRead r p) as [r1 [d e1]] eqn:Hrd.
    destruct (run r1 _) as [r2 evs'] eqn:Hrun. intros [= <- <-].
    assert (Hstep : step r (OpRead p) = (r1, EvRead d e1))
      by (simpl; by rewrite Hrd).
    destruct (step_stuck _ _ _ _ _ Hst Hstep) as [Hst1 Hev].
    destruct (Hev _ _ eq_refl) as [-> ->].
    f_equal. by eapply IH.
Qed.

Lemma last_replicate_S {A} k (x : A) : last (replicate (S k) x) = Some x.
Proof. rewrite replicate_S_end. apply last_snoc. Qed.

Lemma bytesRead_replicate_nil k e :
  bytesRead (replicate k (EvRead [] e)) = [].
Proof. induction k; simpl; [done|]. apply IHk. Qed.

Lemma decodedStream_S block k :
  decodedStream block (S k) = decodedStream block k ++ block (Z.of_nat k).
Proof.
  unfold decodedStream. rewrite seq_S, flat_map_app. simpl.
  by rewrite app_nil_r.
Qed.

Lemma decodedStream_prefix block k m :
  (k ≤ m)%nat → decodedStream block k `prefix_of` decodedStream block m.
Proof.
  induction 1 as [|m _ IH]; [done|].
  rewrite decodedStream_S. by apply prefix_app_r.
Qed.

Section Length.
Variable block : Z → list byte.
Variable Inv : SR → Prop.
Variables dbs n : Z.
Hypothesis dbs_pos : 0 < dbs.
Hypothesis n_range : 0 ≤ n < 2 ^ 63.
Hypothesis block_length :
  ∀ i, 0 ≤ i < n → Z.of_nat (length (block i)) = dbs.
(** Every [ReadStripe] for a stripe below [n] succeeds: it appends the
    block of the stripe to the slice it is given. *)
Hypothesis ReadStripe_ok : ∀ sr i p, Inv sr → 0 ≤ i < n →
  ∃ sr', ReadStripe sr i p = (sr', (p ++ block i, None)) ∧ Inv sr'.

Local Abbreviation X := (decodedStream block (Z.to_nat n)).

Lemma decodedStream_length k :
  Z.of_nat k ≤ n → Z.of_nat (length (decodedStream block k)) = Z.of_nat k * dbs.
Proof using block_length.
  induction k as [|k IH]; intros Hk; [done|].
  rewrite decodedStream_S, length_app, Nat2Z.inj_add, IH by lia.
  rewrite block_length by lia. lia.
Qed.

Lemma mid_prefix k pre dr : mid Inv block n k pre dr → pre `prefix_of` X.
Proof.
  intros (_ & _ & _ & _ & Hk & Hpre).
  trans (decodedStream block k); [by eexists|].
  apply decodedStream_prefix. lia.
Qed.

(** One [Read] in the middle of the stream. *)
Lemma Read_mid k pre dr plen dr' d e :
  mid Inv block n k pre dr → Read dr plen = (dr', (d, e)) →
  (e = None ∧ (∃ k', mid Inv block n k' (pre ++ d) dr') ∧
   ((0 < plen)%nat → d ≠ []))
  ∨ (e = Some EOF ∧ d = [] ∧ pre = X ∧ stuck EOF (Decoded dr')).
Proof using dbs_pos n_range block_length ReadStripe_ok.
  intros (Herr & HInv & Hexp & Hcur & Hk & Hpre). unfold Read.
  destruct (Z.leb_spec (Z.of_nat (length (outbuf dr))) 0) as [Hemp|Hne].
  - assert (Hob : outbuf dr = [])
      by (destruct (outbuf dr); simpl in *; [done|lia]).
    rewrite Herr, Hexp, Hcur.
    destruct (Z.geb_spec (Z.of_nat k) n) as [Hge|Hlt].
    + intros [= <- <- <-]. right. simpl. split_and!; try done.
      rewrite Hob, app_nil_r in Hpre.
      replace (Z.to_nat n) with k by lia. done.
    + destruct (ReadStripe_ok (stripeReader dr) (Z.of_nat k) (outbuf dr))
        as (sr' & -> & HInv'); [done|lia|].
      rewrite drain_spec. simpl. intros [= <- <- <-]. left.
      rewrite Hob in *. rewrite app_nil_r in Hpre. simpl.
      assert (Hlen := block_length (Z.of_nat k) ltac:(lia)).
      split; [done|]. split.
      * exists (S k). split_and!; simpl; try done.
        -- rewrite wrap64_id by (unfold int64_range; lia). lia.
        -- lia.
        -- rewrite <- app_assoc, take_drop, decodedStream_S. by f_equal.
      * intros Hp Hnil. apply (f_equal length) in Hnil.
        rewrite length_take in Hnil. simpl in Hnil. lia.
  - rewrite drain_spec. intros [= <- <- <-]. left. simpl.
    split; [done|]. split.
    + exists k. split_and!; simpl; try done.
      by rewrite <- app_assoc, take_drop.
    + intros Hp Hnil. apply (f_equal length) in Hnil.
      rewrite length_take in Hnil. simpl in Hnil. lia.
Qed.

(** Any sequence of [Read]s from the middle of the stream. *)
Lemma run_reads_mid ps : ∀ k pre dr r' evs,
  mid Inv block n k pre dr →
  run (Decoded dr) (OpRead <$> ps) = (r', evs) →
  ((∃ k' dr', r' = Decoded dr' ∧
      mid Inv block n k' (pre ++ bytesRead evs) dr' ∧
      (length pre + countPos ps ≤ length (pre ++ bytesRead evs))%nat)
   ∨ (pre ++ bytesRead evs = X ∧ last evs = Some (EvRead [] (Some EOF))))
  ∧ (∀ i d e, evs !! i = Some (EvRead d (Some e)) →
       e = EOF ∧ d = [] ∧ pre ++ bytesRead (take i evs) = X ∧
       ∀ j d' e', (i < j)%nat → evs !! j = Some (EvRead d' e') →
         d' = [] ∧ e' = Some EOF)
  ∧ (∀ i plen d, ps !! i = Some plen → (0 < plen)%nat →
       evs !! i = Some (EvRead d None) → d ≠ []).
Proof using dbs_pos n_range block_length ReadStripe_ok.
  induction ps as [|p ps IH]; intros k pre dr r' evs Hmid; simpl.
  - intros [= <- <-]. split; [|done]. left. exists k, dr. simpl.
    rewrite app_nil_r. split_and!; try done. unfold countPos. simpl. lia.
  - destruct (Read dr p) as [dr1 [d e]] eqn:HR.
    destruct (run (Decoded dr1) _) as [r2 evs'] eqn:Hrun.
    intros [= <- <-].
    destruct (Read_mid _ _ _ _ _ _ _ Hmid HR)
      as [(-> & [k1 Hmid1] & Hprog)|(-> & -> & HX & Hst)].
    + destruct (IH _ _ _ _ _ Hmid1 Hrun) as (HA & HC & HD).
      cbn [bytesRead flat_map]. fold (bytesRead evs').
      rewrite app_assoc. split; [|split].
      * destruct HA as [(k' & dr' & -> & Hm & Hcount)|HA]; [left|right].
        -- exists k', dr'. split_and!; try done.
           assert (Hd : (0 < p)%nat → (0 < length d)%nat).
           { intros Hp. specialize (Hprog Hp). destruct d; simpl; [done|lia]. }
           unfold countPos in *. rewrite filter_cons.
           rewrite length_app in Hcount.
           destruct (decide (0 < p)%nat); simpl; [specialize (Hd l)|]; lia.
        -- destruct HA as [HA1 HA2]. split; [done|].
           destruct evs'; [done|]. done.
      * intros [|i] d0 e0; simpl; [done|]. intros Hi.
        destruct (HC _ _ _ Hi) as (-> & -> & HXi & Hlater).
        rewrite app_assoc. split_and!; try done.
        intros [|j] d' e' Hij; [lia|]. simpl. apply Hlater. lia.
      * intros [|i] plen d0; simpl.
        -- intros [= ->] Hp [= ->]. by apply Hprog.
        -- apply HD.
    + apply run_stuck_reads with (e := EOF) in Hrun as ->; [|done].
      change (EvRead [] (Some EOF) :: replicate (length ps) (EvRead [] (Some EOF)))
        with (replicate (S (length ps)) (EvRead [] (Some EOF))).
      rewrite bytesRead_replicate_nil, !app_nil_r. split; [|split].
      * right. split; [done|]. apply last_replicate_S.
      * intros i d0 e0 [[= -> ->] Hi]%lookup_replicate.
        rewrite take_replicate, bytesRead_replicate_nil, app_nil_r.
        split_and!; try done;
          by intros j d' e' _ [[= -> ->] _]%lookup_replicate.
      * intros [|i] plen d0; simpl; [by intros _ _ [=]|].
        by intros _ _ [[=] _]%lookup_replicate.
Qed.
End Length.

(** C1: let [S ≥ 0] be a multiple of the decoded block size and let
    every [ReadStripe] for the stripes [0 .. S/dbs - 1] succeed, each
    appending the [dbs] bytes of its block. Then, whatever buffer sizes
    [ps] the caller reads with: the bytes delivered are a prefix of the
    [S]-byte decoded stream; the only error a [Read] returns is EOF, it
    comes with no bytes, exactly when all [S] bytes have been delivered,
    and it is returned again by every later [Read]; a [Read] into a
    non-empty buffer that succeeds delivers at least one byte; so after
    more than [S] non-empty buffers all [S] bytes and EOF have been
    returned. *)
Theorem DecodeReaders_length_exact (block : Z → list byte)
    (Inv : SR → Prop) rs es0 S mbm0 :
  let dbs := DecodedBlockSize es0 in
  let n := Z.quot S dbs in
  0 < dbs → 0 ≤ S < 2 ^ 63 → Z.rem S dbs = 0 → checkMBM mbm0 = None →
  Inv (NewStripeReader rs es0 mbm0) →
  (∀ i, 0 ≤ i < n → Z.of_nat (length (block i)) = dbs) →
  (∀ sr i p, Inv sr → 0 ≤ i < n →
     ∃ sr', ReadStripe sr i p = (sr', (p ++ block i, None)) ∧ Inv sr') →
  ∃ r0, DecodeReaders checkMBM NewStripeReader rs es0 S mbm0 = Done r0 ∧
    let X := decodedStream block (Z.to_nat n) in
    Z.of_nat (length X) = S ∧
    ∀ ps r' evs, run r0 (OpRead <$> ps) = (r', evs) →
      bytesRead evs `prefix_of` X
      ∧ (∀ i d e, evs !! i = Some (EvRead d (Some e)) →
           e = EOF ∧ d = [] ∧ bytesRead (take i evs) = X ∧
           ∀ j d' e', (i < j)%nat → evs !! j = Some (EvRead d' e') →
             d' = [] ∧ e' = Some EOF)
      ∧ (∀ i plen d, ps !! i = Some plen → (0 < plen)%nat →
           evs !! i = Some (EvRead d None) → d ≠ [])
      ∧ (S < Z.of_nat (countPos ps) →
           bytesRead evs = X ∧ last evs = Some (EvRead [] (Some EOF))).
Proof.
  intros dbs n Hdbs HS Hrem Hmbm HInv Hlen Hok.
  assert (HSn : S = n * dbs).
  { pose proof (Z.quot_rem' S dbs) as Hq. fold n in Hq. lia. }
  assert (Hn : 0 ≤ n < 2 ^ 63).
  { split; [apply Z.quot_pos; lia|].
    assert (n ≤ S) by (apply Z.quot_le_upper_bound; nia). lia. }
  unfold DecodeReaders. fold dbs.
  destruct (Z.ltb_spec S 0); [lia|].
  destruct (Z.eqb_spec dbs 0); [lia|].
  rewrite Hrem, Hmbm. simpl.
  destruct (Z.ltb_spec dbs 0); [lia|].
  eexists. split; [reflexivity|]. fold n. cbv zeta.
  assert (HX : Z.of_nat (length (decodedStream block (Z.to_nat n))) = S).
  { rewrite (decodedStream_length block dbs n) by (done || lia). lia. }
  split; [done|]. intros ps r' evs Hrun.
  eapply (run_reads_mid block Inv dbs n Hdbs Hn Hlen Hok ps 0%nat [])
    in Hrun as (HA & HC & HD).
  2:{ split_and!; simpl; try done. lia. }
  simpl in HA, HC.
  assert (Hpre : bytesRead evs `prefix_of` decodedStream block (Z.to_nat n)).
  { destruct HA as [(k' & dr' & _ & Hm & _)|[-> _]]; [|done].
    by eapply mid_prefix. }
  split_and!; try done.
  intros Hcount. destruct HA as [(k' & dr' & _ & _ & Hc)|HA]; [|done].
  apply prefix_length in Hpre. lia.
Qed.

End DecodedReaderFacts.

Section CloseFacts.
Context {SR : Type} `{!StripeReaderOps SR}.

Lemma closeReaders_cons i r its (rs : gmap Z pieceStream) errs :
  closeReaders ((i, r) :: its) rs errs =
    if bool_decide (0 ≤ i < Z.of_nat (length errs)) then
      closeReaders its (<[i:=(psClose r).1]> rs)
        (<[Z.to_nat i:=ps_closeErr r]> errs)
    else (<[i:=(psClose r).1]> rs,
          Panic (IndexOutOfRange i (Z.of_nat (length errs)))).
Proof. reflexivity. Qed.

(** [closeReaders] when every key is a valid index of [errs]: no panic,
    every stream of the sequence is closed once, and its result is at
    the index of its key. *)
Lemma closeReaders_in_range its : ∀ (rs : gmap Z pieceStream) errs,
  NoDup its.*1 →
  (∀ k r, (k, r) ∈ its → 0 ≤ k < Z.of_nat (length errs)) →
  ∃ errs',
    closeReaders its rs errs =
      (((λ r, (psClose r).1) <$> (list_to_map its : gmap Z pieceStream)) ∪ rs,
       Done errs')
    ∧ length errs' = length errs
    ∧ (∀ k r, (k, r) ∈ its → errs' !! Z.to_nat k = Some (ps_closeErr r))
    ∧ (∀ j, (∀ k r, (k, r) ∈ its → Z.to_nat k ≠ j) → errs' !! j = errs !! j).
Proof.
  induction its as [|[i r] its IH]; intros rs errs Hnd Hin;
    [simpl|rewrite closeReaders_cons].
  - exists errs. rewrite fmap_empty, (left_id_L ∅ (∪)). split_and!; try done.
    by intros k r ?%elem_of_nil.
  - apply NoDup_cons in Hnd as [Hi Hnd].
    assert (Hir : 0 ≤ i < Z.of_nat (length errs)) by (eapply Hin; left).
    rewrite bool_decide_true by done.
    destruct (IH (<[i:=(psClose r).1]> rs) (<[Z.to_nat i:=ps_closeErr r]> errs))
      as (errs' & -> & Hlen & Hk & Hj); [done| |].
    { intros k r' Hkr. rewrite length_insert. eapply Hin. by right. }
    exists errs'. rewrite length_insert in Hlen. split_and!; try done.
    + f_equal. rewrite list_to_map_cons, fmap_insert.
      rewrite <- insert_union_r, <- insert_union_l; [done|].
      rewrite lookup_fmap.
      apply (not_elem_of_list_to_map_1 (M:=gmap Z)) in Hi. simpl in Hi.
      by rewrite Hi.
    + intros k r' [[= -> ->]|Hkr]%elem_of_cons; [|by eapply Hk].
      rewrite Hj.
      * apply list_lookup_insert_eq. lia.
      * intros k r' Hkr Heq. apply Hi.
        assert (k = i) as ->; [|by apply (list_elem_of_fmap_2 fst _ (i, r'))].
        assert (0 ≤ k) by (eapply (Hin k r'); by right). lia.
    + intros j Hne. rewrite Hj.
      * apply list_lookup_insert_ne. eapply Hne. left.
      * intros k r' Hkr. eapply Hne. by right.
Qed.

(** A key that is no valid index of [errs] makes the loop panic, in
    whatever order the map is iterated. *)
Lemma closeReaders_out_of_range its : ∀ (rs : gmap Z pieceStream) errs,
  (∃ k r, (k, r) ∈ its ∧ ¬ (0 ≤ k < Z.of_nat (length errs))) →
  ∃ rs' p, closeReaders its rs errs = (rs', Panic p).
Proof.
  induction its as [|[i r] its IH]; intros rs errs (k & r' & Hin & Hk).
  - by apply elem_of_nil in Hin.
  - rewrite closeReaders_cons. case_bool_decide as Hi; [|by eauto].
    apply IH. exists k, r'. rewrite length_insert.
    apply elem_of_cons in Hin as [[= -> ->]|Hin]; done.
Qed.

Lemma Read_close_fields (dr : decodedReader SR) plen :
  readers (Read dr plen).1 = readers dr
  ∧ closeDone (Read dr plen).1 = closeDone dr
  ∧ closeErr (Read dr plen).1 = closeErr dr
  ∧ srCloses (Read dr plen).1 = srCloses dr.
Proof.
  unfold Read. repeat case_match; subst; rewrite ?drain_spec; done.
Qed.

(** [Close] with every key in [0 .. len(readers)], before the latch is
    set: no panic, every stream and the stripe reader are closed, the
    aggregate is stored. *)
Lemma Close_in_range (dr : decodedReader SR) its :
  closeDone dr = false →
  its ≡ₚ map_to_list (readers dr) →
  (∀ k, is_Some (readers dr !! k) → 0 ≤ k ≤ Z.of_nat (size (readers dr))) →
  ∃ agg sr',
    Close dr its =
      (set_closed dr ((λ r, (psClose r).1) <$> readers dr) sr' agg
         (S (srCloses dr)), Done agg).
Proof.
  intros Hopen Hperm Hkeys. unfold Close. rewrite Hopen.
  destruct (closeReaders_in_range its (readers dr)
              (replicate (size (readers dr) + 1) None))
    as (errs' & -> & _ & _ & _).
  - rewrite Hperm. apply NoDup_fst_map_to_list.
  - intros k r Hkr. rewrite length_replicate.
    rewrite Hperm in Hkr. apply elem_of_map_to_list in Hkr.
    specialize (Hkeys k (mk_is_Some _ _ Hkr)). lia.
  - destruct (srClose (stripeReader dr)) as [sr' e].
    eexists _, sr'. f_equal. f_equal.
    rewrite (list_to_map_proper its (map_to_list (readers dr)))
      by (done || rewrite Hperm; apply NoDup_fst_map_to_list).
    rewrite list_to_map_to_list. apply map_eq. intros k.
    rewrite lookup_union, !lookup_fmap.
    by destruct (readers dr !! k).
Qed.

(** X24: [Close] on a map keyed by [0 .. len-1]: the aggregate combines the
    piece errors in ascending key order and the stripe reader's error
    last, in whatever order the map is iterated. *)
Lemma Close_contiguous_aggregate (dr : decodedReader SR) its :
  closeDone dr = false →
  its ≡ₚ map_to_list (readers dr) →
  (∀ k, is_Some (readers dr !! k) ↔ 0 ≤ k < Z.of_nat (size (readers dr))) →
  (Close dr its).2 =
    Done (CombineErrors
      (((λ i, readers dr !! i ≫= ps_closeErr)
          <$> seqZ 0 (Z.of_nat (size (readers dr))))
       ++ [(srClose (stripeReader dr)).2])).
Proof.
  intros Hopen Hperm Hkeys. unfold Close. rewrite Hopen.
  set (n := size (readers dr)) in *.
  destruct (closeReaders_in_range its (readers dr) (replicate (n + 1) None))
    as (errs' & -> & Hlen & Hk & _).
  - rewrite Hperm. apply NoDup_fst_map_to_list.
  - intros k r Hkr. rewrite length_replicate.
    rewrite Hperm in Hkr. apply elem_of_map_to_list in Hkr.
    apply mk_is_Some, Hkeys in Hkr. lia.
  - rewrite length_replicate in Hlen.
    destruct (srClose (stripeReader dr)) as [sr' e]. simpl.
    do 2 f_equal. apply list_eq. intros j.
    destruct (decide (j < n)%nat) as [Hj|Hj].
    + rewrite list_lookup_insert_ne by lia.
      rewrite lookup_app_l by (rewrite length_fmap, length_seqZ; lia).
      rewrite list_lookup_fmap, lookup_seqZ_lt by lia. simpl.
      destruct (proj2 (Hkeys (Z.of_nat j)) ltac:(lia)) as [r Hr].
      rewrite Z.add_0_l, Hr. simpl.
      rewrite <- (Nat2Z.id j). apply (Hk _ r).
      rewrite Hperm. by apply elem_of_map_to_list.
    + destruct (decide (j = n)) as [->|Hne].
      * rewrite list_lookup_insert_eq by lia.
        rewrite lookup_app_r by (rewrite length_fmap, length_seqZ; lia).
        rewrite length_fmap, length_seqZ.
        by replace (n - Z.to_nat (Z.of_nat n))%nat with 0%nat by lia.
      * rewrite list_lookup_insert_ne by lia.
        rewrite !lookup_ge_None_2; [done| |lia].
        rewrite length_app, length_fmap, length_seqZ. simpl. lia.
Qed.

(** *** The latch *)

Lemma step_closedWith agg rs (r : Reader SR) o r' ev :
  closedWith agg rs r → step r o = (r', ev) →
  closedWith agg rs r' ∧ (∀ res, ev = EvClose res → res = Done agg).
Proof.
  destruct r as [|dr|]; try done. intros (Hd & Ha & Hr & Hs).
  destruct o as [plen|its]; simpl.
  - destruct (Read dr plen) as [dr' [d e]] eqn:HR. intros [= <- <-].
    destruct (Read_close_fields dr plen) as (H1 & H2 & H3 & H4).
    rewrite HR in *. simpl in *. split; [|done].
    split_and!; congruence.
  - unfold Close. rewrite Hd. intros [= <- <-].
    split; [done|]. intros res [= <-]. by rewrite Ha.
Qed.

Lemma run_closedWith agg rs ops : ∀ (r r' : Reader SR) evs,
  closedWith agg rs r → run r ops = (r', evs) →
  closedWith agg rs r' ∧
  (∀ i res, evs !! i = Some (EvClose res) → res = Done agg).
Proof.
  induction ops as [|o ops IH]; simpl; intros r r' evs Hc.
  - intros [= <- <-]. done.
  - destruct (step r o) as [r1 ev] eqn:Hstep.
    destruct (run r1 ops) as [r2 evs'] eqn:Hrun. intros [= <- <-].
    destruct (step_closedWith _ _ _ _ _ _ Hc Hstep) as [Hc1 Hev].
    destruct (IH _ _ _ Hc1 Hrun) as [Hc2 Hevs]. split; [done|].
    intros [|i] res; simpl; [intros [= ->]; by apply Hev|apply Hevs].
Qed.

(** Any interleaving of [Read] and [Close] calls on a reader whose keys
    lie in [0 .. len(rs)]: every [Close] returns the same aggregate, and
    as soon as there was one, each stream and the stripe reader have
    received exactly one [Close]. *)
Lemma run_close_once rs ops : ∀ (r r' : Reader SR) evs,
  stillOpen rs r →
  (∀ k, is_Some (rs !! k) → 0 ≤ k ≤ Z.of_nat (size rs)) →
  (∀ its, OpClose its ∈ ops → its ≡ₚ map_to_list rs) →
  run r ops = (r', evs) →
  ∃ agg, (∀ i res, evs !! i = Some (EvClose res) → res = Done agg)
    ∧ ((∃ its, OpClose its ∈ ops) →
       streamsOf rs r' = (λ r, (psClose r).1) <$> rs ∧ srClosesOf r' = 1%nat).
Proof.
  induction ops as [|o ops IH]; simpl; intros r r' evs Hopen Hkeys Hits.
  - intros [= <- <-]. exists None. split; [done|].
    by intros [its ?%elem_of_nil].
  - destruct (step r o) as [r1 ev] eqn:Hstep.
    destruct (run r1 ops) as [r2 evs'] eqn:Hrun. intros [= <- <-].
    destruct r as [|dr|]; try done. destruct Hopen as (Hd & Hr & Hs).
    destruct o as [plen|its]; simpl in Hstep.
    + destruct (Read dr plen) as [dr' [d e]] eqn:HR.
      injection Hstep as <- <-.
      destruct (Read_close_fields dr plen) as (H1 & H2 & H3 & H4).
      rewrite HR in *. simpl in *.
      destruct (IH (Decoded dr') r2 evs') as (agg & Hevs & Hfin); try done.
      { split_and!; congruence. }
      { intros its Hin. apply Hits. by right. }
      exists agg. split.
      * intros [|i] res; simpl; [done|apply Hevs].
      * intros [its [?|Hin]%elem_of_cons]; [done|]. apply Hfin. eauto.
    + destruct (Close_in_range dr its) as (agg & sr' & HC); try done.
      { rewrite Hr. apply Hits. left. }
      { by rewrite Hr. }
      rewrite HC in Hstep. injection Hstep as <- <-.
      assert (Hc0 : closedWith agg rs (Decoded
        (set_closed dr ((λ r, (psClose r).1) <$> readers dr) sr' agg
           (S (srCloses dr))))).
      { simpl. by rewrite Hr, Hs. }
      destruct (run_closedWith _ _ _ _ _ _ Hc0 Hrun) as [Hc Hevs].
      exists agg. split.
      * intros [|i] res; simpl; [by intros [= <-]|apply Hevs].
      * intros _. destruct r2 as [|dr2|]; try done.
        destruct Hc as (_ & _ & ? & ?). done.
Qed.
End CloseFacts.

(** *** [Close] on maps that are not keyed by [0 .. len-1] *)

(** C9: a map with the single key 5. [errs] has two slots, the store
    [errs[5]] is out of range, and [Close] panics. *)
Theorem Close_key_5_index_out_of_range :
  ∃ dr,
    DecodeReaders checkNonNeg repNew pieceAt5 scheme24 4 0 = Done (Decoded dr)
    ∧ map_to_list pieceAt5 = [(5, streamOf "ABCD" None)]
    ∧ (Close dr [(5, streamOf "ABCD" None)]).2 = Panic (IndexOutOfRange 5 2).
Proof. eexists. split; [reflexivity|]. split; vm_compute; reflexivity. Qed.

(** C3: a map with the single key 1 whose stream fails to close. The
    stream's error is stored in [errs[1]], the slot of the stripe reader,
    and overwritten by the stripe reader's nil: the aggregate is nil although
    a stream did not close cleanly. *)
Theorem Close_key_1_drops_piece_error :
  ∃ dr,
    DecodeReaders checkNonNeg repNew pieceAt1 scheme24 4 0 = Done (Decoded dr)
    ∧ map_to_list pieceAt1 =
        [(1, streamOf "ABCD" (Some (ErrOther "close failed")))]
    ∧ (Close dr (map_to_list pieceAt1)).2 = Done None
    ∧ ps_closeErr <$> readers (Close dr (map_to_list pieceAt1)).1 !! 1
        = Some (Some (ErrOther "close failed")).
Proof.
  eexists. split; [reflexivity|]. split_and!; vm_compute; reflexivity.
Qed.

(** C5: a map with the single key 5. The first [Close] panics inside the
    latch, a caller that recovers gets nil from the second [Close], and the
    stripe reader's [Close] is never called. *)
Theorem Close_after_panic_returns_nil :
  ∃ r0 r',
    DecodeReaders checkNonNeg repNew pieceAt5 scheme24 4 0 = Done r0
    ∧ run r0 [OpClose (map_to_list pieceAt5); OpRead 4;
              OpClose (map_to_list pieceAt5)]
        = (r', [EvClose (Panic (IndexOutOfRange 5 2));
                EvRead (bytesOf "ABCD") None; EvClose (Done None)])
    ∧ srClosesOf r' = 0%nat.
Proof.
  eexists _, _. split; [reflexivity|]. split.
  - vm_compute. reflexivity.
  - vm_compute. reflexivity.
Qed.

(** *** The theorems above on the scheme [(k = 2, n = 4)] *)

Lemma DecodeReaders_contract_violation_witness :
  (DecodedBlockSize scheme24 ≠ 0 ∧ Z.rem 7 (DecodedBlockSize scheme24) ≠ 0)
  ∧ ∃ e,
      DecodeReaders checkNonNeg repNew pieces01 scheme24 7 0 = Done (Fatal e)
      ∧ e = ErrNotFactor 7 4
      ∧ rdRead (Fatal e : Reader replicaReader) 4 = (Fatal e, ([], Some e))
      ∧ rdClose (Fatal e : Reader replicaReader) [] = (Fatal e, Done None).
Proof.
  assert (H : DecodedBlockSize scheme24 ≠ 0
              ∧ Z.rem 7 (DecodedBlockSize scheme24) ≠ 0)
    by (split; vm_compute; discriminate).
  split; [exact H|].
  destruct (DecodeReaders_contract_violation (SR:=replicaReader)
              checkNonNeg repNew pieces01 scheme24 7 0)
    as (e & HD & _ & Hnf & _ & HR & HC & _).
  { right. destruct H. split; [done|]. by left. }
  exists e. split; [exact HD|]. split; [|split; [apply HR|apply HC]].
  apply Hnf; [lia|apply H].
Defined.

Lemma repReadStripe_error_nil (sr : replicaReader) num p sr' b e :
  ReadStripe sr num p = (sr', (b, Some e)) → b = [].
Proof.
  simpl. unfold repReadStripe. case_match; congruence.
Qed.

Lemma Read_error_sticky_witness :
  ∃ r0 r' evs,
    DecodeReaders checkNonNeg repNew pieces01 scheme24 8 0 = Done r0
    ∧ run r0 [OpRead 8; OpRead 8; OpRead 1; OpClose (map_to_list pieces01);
              OpRead 1] = (r', evs)
    ∧ evs !! 2%nat = Some (EvRead [] (Some EOF))
    ∧ evs !! 4%nat = Some (EvRead [] (Some EOF))
    ∧ ([] = @nil byte ∧ [] = @nil byte ∧ Some EOF = Some EOF).
Proof.
  destruct (DecodeReaders checkNonNeg repNew pieces01 scheme24 8 0)
    as [r0|] eqn:HD; [|discriminate HD].
  destruct (run r0 [OpRead 8; OpRead 8; OpRead 1;
                    OpClose (map_to_list pieces01); OpRead 1])
    as [r' evs] eqn:Hrun.
  assert (H2 : evs !! 2%nat = Some (EvRead [] (Some EOF))).
  { injection HD as <-. vm_compute in Hrun. by injection Hrun as <- <-. }
  assert (H4 : evs !! 4%nat = Some (EvRead [] (Some EOF))).
  { injection HD as <-. vm_compute in Hrun. by injection Hrun as <- <-. }
  exists r0, r', evs. split; [reflexivity|]. split; [exact Hrun|].
  split; [exact H2|]. split; [exact H4|].
  apply (Read_error_sticky (SR:=replicaReader) checkNonNeg repNew
           repReadStripe_error_nil pieces01 scheme24 8 0 r0 _ r' evs
           HD Hrun 2%nat 4%nat); [lia|exact H2|exact H4].
Defined.

Lemma DecodeReaders_length_exact_witness :
  ∃ r0,
    DecodeReaders checkNonNeg repNew pieces01 scheme24 8 0 = Done r0
    ∧ ∀ ps r' evs, run r0 (OpRead <$> ps) = (r', evs) →
        8 < Z.of_nat (countPos ps) →
        bytesRead evs = bytesOf "ABCDEFGH"
        ∧ last evs = Some (EvRead [] (Some EOF)).
Proof.
  destruct (DecodeReaders_length_exact (SR:=replicaReader) checkNonNeg repNew
              (λ i, take 4 (drop (Z.to_nat i * 4) (bytesOf "ABCDEFGH")))
              (λ sr, sr = repNew pieces01 scheme24 0)
              pieces01 scheme24 8 0)
    as (r0 & HD & _ & Hrun).
  - vm_compute. reflexivity.
  - vm_compute. split; [discriminate|reflexivity].
  - reflexivity.
  - reflexivity.
  - reflexivity.
  - intros i Hi. change (Z.quot 8 (DecodedBlockSize scheme24)) with 2 in Hi.
    assert (i = 0 ∨ i = 1) as [->| ->] by lia; reflexivity.
  - intros sr i p -> Hi.
    change (Z.quot 8 (DecodedBlockSize scheme24)) with 2 in Hi.
    assert (i = 0 ∨ i = 1) as [->| ->] by lia;
      (eexists; split; [|reflexivity]); reflexivity.
  - exists r0. split; [exact HD|]. intros ps r' evs Hr Hc.
    destruct (Hrun ps r' evs Hr) as (_ & _ & _ & Hfin).
    apply Hfin in Hc. exact Hc.
Defined.

(** ** Decode and Range *)

Lemma wrap64_0 : wrap64 0 = 0.
Proof. reflexivity. Qed.

Section RangeFacts.
Context {SR : Type} `{!StripeReaderOps SR}.
Variable checkMBM : Z → option error.
Variable NewStripeReader : gmap Z pieceStream → ErasureScheme → Z → SR.

Lemma sizeLoop_all_zero (its : list (Z * pieceRanger)) :
  Forall (λ kv, rr_Size kv.2 = 0) its →
  sizeLoop its 0 = inl 0
  ∧ sizeLoop its (-1) = inl (if its is [] then -1 else 0).
Proof.
  induction 1 as [|[k rr] its Hrr _ [IH0 _]]; [done|].
  simpl in *. rewrite Hrr. simpl. by rewrite IH0.
Qed.

(** The empty window at offset 0 of a ranger over whatever sources. *)
Lemma Range_0_0 (dr : decodedRanger) fuel :
  0 < DecodedBlockSize (es dr) → checkMBM (mbm dr) = None →
  ∃ r, Range checkMBM NewStripeReader (S fuel) dr 0 0 = Some (Done (inl r))
    ∧ ∀ plen, (rdRead r plen).2 = ([], Some EOF).
Proof.
  intros Hdbs Hmbm. unfold Range, calcEncompassingBlocks. simpl.
  change (wrap64 (0 * DecodedBlockSize (es dr))) with 0.
  unfold DecodeReaders. simpl.
  destruct (Z.eqb_spec (DecodedBlockSize (es dr)) 0); [lia|].
  rewrite Hmbm.
  destruct (Z.ltb_spec (DecodedBlockSize (es dr)) 0); [lia|].
  eexists. split; [reflexivity|]. done.
Qed.

(** C4 (amended): [Decode] on zero sources, or on sources that all
    report size zero, returns the error of [checkMBM] when the budget is
    refused, "not enough readers" when there are fewer sources than the
    required count (so on zero sources whenever that count is positive),
    and the empty byte ranger on zero sources with a required count of at
    most zero. On at least [RequiredCount] zero-size sources, with a
    non-zero encoded and a positive decoded block size, it returns a
    decoded ranger of size 0 whose [Range(0, 0)] is a reader that answers
    EOF at once. *)
Theorem Decode_zero_sources_or_zero_size its rrs0 es0 mbm0 :
  its ≡ₚ map_to_list rrs0 →
  (∀ k rr, rrs0 !! k = Some rr → rr_Size rr = 0) →
  (∀ e, checkMBM mbm0 = Some e →
     Decode checkMBM its rrs0 es0 mbm0 = Done (inr e))
  ∧ (checkMBM mbm0 = None → Z.of_nat (size rrs0) < RequiredCount es0 →
     Decode checkMBM its rrs0 es0 mbm0 = Done (inr ErrNotEnoughReaders))
  ∧ (checkMBM mbm0 = None → RequiredCount es0 ≤ Z.of_nat (size rrs0) →
     rrs0 = ∅ →
     Decode checkMBM its rrs0 es0 mbm0 = Done (inl (ByteRanger [])))
  ∧ (checkMBM mbm0 = None → RequiredCount es0 ≤ Z.of_nat (size rrs0) →
     rrs0 ≠ ∅ → EncodedBlockSize es0 ≠ 0 → 0 < DecodedBlockSize es0 →
     ∃ dr, Decode checkMBM its rrs0 es0 mbm0 = Done (inl (DecodedRanger dr))
       ∧ Size dr = Done 0
       ∧ ∀ fuel, ∃ r,
           Range checkMBM NewStripeReader (S fuel) dr 0 0
             = Some (Done (inl r))
           ∧ ∀ plen, (rdRead r plen).2 = ([], Some EOF)).
Proof.
  intros Hperm Hzero.
  assert (Hall : Forall (λ kv : Z * pieceRanger, rr_Size kv.2 = 0) its).
  { apply Forall_forall. intros [k rr] Hin. rewrite Hperm in Hin.
    apply elem_of_map_to_list in Hin. by eapply Hzero. }
  destruct (sizeLoop_all_zero its Hall) as [_ Hloop].
  unfold Decode. split_and!.
  - by intros e ->.
  - intros -> Hlt. by destruct (Z.ltb_spec (Z.of_nat (size rrs0)) (RequiredCount es0)); [|lia].
  - intros -> Hge ->.
    destruct (Z.ltb_spec (Z.of_nat (size (∅ : gmap Z pieceRanger)))
                (RequiredCount es0)); [lia|].
    rewrite map_to_list_empty in Hperm. apply Permutation_nil_r in Hperm as ->.
    done.
  - intros Hmbm Hge Hne Hebs Hdbs. rewrite Hmbm.
    destruct (Z.ltb_spec (Z.of_nat (size rrs0)) (RequiredCount es0)); [lia|].
    rewrite Hloop. destruct its as [|kv its'].
    { symmetry in Hperm. apply Permutation_nil_r, map_to_list_empty_iff in Hperm. done. }
    simpl. destruct (Z.eqb_spec (EncodedBlockSize es0) 0); [done|].
    eexists. split; [reflexivity|]. split.
    + unfold Size. simpl.
      by destruct (Z.eqb_spec (EncodedBlockSize es0) 0).
    + intros fuel. by apply Range_0_0.
Qed.
End RangeFacts.

(** C4 as stated fails: zero sources under the scheme [(k = 2, n = 4)]
    and the budget 0 are refused with "not enough readers". *)
Lemma Decode_zero_sources_not_enough_readers :
  Decode checkNonNeg (map_to_list (∅ : gmap Z pieceRanger)) ∅ scheme24 0
    = Done (inr ErrNotEnoughReaders).
Proof. reflexivity. Qed.

Lemma Decode_zero_sources_or_zero_size_witness :
  ∃ dr,
    Decode checkNonNeg (map_to_list zeroRangers01) zeroRangers01 scheme24 0
      = Done (inl (DecodedRanger dr))
    ∧ Size dr = Done 0
    ∧ ∃ r, Range checkNonNeg repNew 1 dr 0 0 = Some (Done (inl r))
        ∧ (rdRead r 4).2 = ([], Some EOF).
Proof.
  destruct (Decode_zero_sources_or_zero_size (SR:=replicaReader)
              checkNonNeg repNew (map_to_list zeroRangers01) zeroRangers01
              scheme24 0)
    as (_ & _ & _ & H).
  - reflexivity.
  - intros k rr Hk. unfold zeroRangers01 in Hk.
    apply lookup_insert_Some in Hk as [[_ <-]|[_ Hk]]; [reflexivity|].
    apply lookup_singleton_Some in Hk as [_ <-]. reflexivity.
  - destruct H as (dr & HD & HS & HR).
    + reflexivity.
    + vm_compute. discriminate.
    + intros Hemp. apply (f_equal (λ m, m !! 0)) in Hemp. by vm_compute in Hemp.
    + vm_compute. discriminate.
    + reflexivity.
    + exists dr. split; [exact HD|]. split; [exact HS|].
      destruct (HR 0%nat) as (r & Hr & Hrd). exists r. split; [exact Hr|].
      apply Hrd.
Defined.

(** *** Windows that cover at least one byte *)

Section Window.
Context {SR : Type} `{!StripeReaderOps SR}.
Variable block : Z → list byte.
Variable Inv : SR → Prop.
Variables dbs n : Z.
Hypothesis dbs_pos : 0 < dbs.
Hypothesis n_range : 0 ≤ n < 2 ^ 63.
Hypothesis block_length : ∀ i, 0 ≤ i < n → Z.of_nat (length (block i)) = dbs.
Hypothesis ReadStripe_ok : ∀ sr i p, Inv sr → 0 ≤ i < n →
  ∃ sr', ReadStripe sr i p = (sr', (p ++ block i, None)) ∧ Inv sr'.

Local Abbreviation X := (decodedStream block (Z.to_nat n)).

(** [Read] never delivers more than the buffer holds. *)
Lemma Read_length (dr : decodedReader SR) plen dr' d e :
  Read dr plen = (dr', (d, e)) → (length d ≤ plen)%nat.
Proof.
  unfold Read. repeat case_match; subst; rewrite ?drain_spec;
    intros [= <- <- <-]; simpl; rewrite ?length_take; lia.
Qed.

(** One [Read] through a limit of [m > 0] bytes that the fetched stream
    still covers. *)
Lemma Read_limited k pre (dr : decodedReader SR) m plen :
  mid Inv block n k pre dr → 0 < m →
  Z.of_nat (length pre) + m ≤ Z.of_nat (length X) →
  ∃ dr' d k',
    rdRead (Limited (Decoded dr) m) plen =
      (Limited (Decoded dr') (m - Z.of_nat (length d)), (d, None))
    ∧ mid Inv block n k' (pre ++ d) dr'
    ∧ Z.of_nat (length d) ≤ m
    ∧ ((0 < plen)%nat → d ≠ []).
Proof using dbs_pos n_range block_length ReadStripe_ok.
  intros Hmid Hm Hfit. simpl.
  destruct (Z.leb_spec m 0) as [?|_]; [lia|].
  destruct (Read dr (plen `min` Z.to_nat m)) as [dr' [d e]] eqn:HR.
  pose proof (Read_length _ _ _ _ _ HR) as Hlen.
  destruct (Read_mid block Inv dbs n dbs_pos n_range block_length
              ReadStripe_ok _ _ _ _ _ _ _ Hmid HR)
    as [(-> & [k' Hmid'] & Hprog)|(_ & _ & HX & _)].
  - exists dr', d, k'. split_and!; try done; [lia|].
    intros Hp. apply Hprog. lia.
  - rewrite HX in Hfit. lia.
Qed.

(** The discard loop over a limit the fetched stream covers: with more
    fuel than bytes to discard it ends, having read exactly [m] bytes. *)
Lemma discardReadFrom_mid fuel : ∀ m k pre (dr : decodedReader SR) acc,
  mid Inv block n k pre dr → 0 ≤ m →
  Z.of_nat (length pre) + m ≤ Z.of_nat (length X) →
  (Z.to_nat m < fuel)%nat →
  ∃ dr' k' pre',
    discardReadFrom fuel (Limited (Decoded dr) m) acc =
      Some (Limited (Decoded dr') 0, (acc + m, None))
    ∧ mid Inv block n k' pre' dr'
    ∧ Z.of_nat (length pre') = Z.of_nat (length pre) + m.
Proof using dbs_pos n_range block_length ReadStripe_ok.
  induction fuel as [|fuel IH]; intros m k pre dr acc Hmid Hm Hfit Hfuel;
    [lia|].
  destruct (decide (m = 0)) as [->|Hpos].
  { exists dr, k, pre. simpl. rewrite !Z.add_0_r. split_and!; done. }
  destruct (Read_limited k pre dr m discardBufSize Hmid) as
    (dr1 & d & k1 & Hrd & Hmid1 & Hdm & Hprog); [lia|done|].
  assert (Hd : (0 < length d)%nat).
  { destruct d; simpl; [|lia]. exfalso. apply Hprog; [|done].
    unfold discardBufSize. lia. }
  cbn [discardReadFrom]. rewrite Hrd.
  destruct (IH (m - Z.of_nat (length d)) k1 (pre ++ d) dr1
              (acc + Z.of_nat (length d)) Hmid1)
    as (dr' & k' & pre' & -> & Hmid' & Hlen'); [lia| |lia|].
  { rewrite length_app. lia. }
  exists dr', k', pre'. split_and!; try done.
  - do 3 f_equal. lia.
  - rewrite Hlen', length_app. lia.
Qed.

(** Past its limit a limited reader answers EOF and stays as it is. *)
Lemma run_limited_zero ps : ∀ (r r' : Reader SR) m evs,
  m ≤ 0 → run (Limited r m) (OpRead <$> ps) = (r', evs) →
  r' = Limited r m ∧ evs = replicate (length ps) (EvRead [] (Some EOF)).
Proof.
  induction ps as [|p ps IH]; intros r r' m evs Hm; simpl.
  - by intros [= <- <-].
  - destruct (Z.leb_spec m 0) as [_|?]; [|lia].
    destruct (run (Limited r m) _) as [r2 evs'] eqn:Hrun.
    intros [= <- <-]. destruct (IH _ _ _ _ Hm Hrun) as [-> ->]. done.
Qed.

(** The window a limit of [m] bytes opens behind the delivered [pre]. *)
Lemma window_step (pre d : list byte) (m : nat) :
  pre ++ d `prefix_of` X → (length d ≤ m)%nat →
  take m (drop (length pre) X) =
    d ++ take (m - length d) (drop (length (pre ++ d)) X).
Proof.
  intros [rest HX] Hd. rewrite HX, <- !app_assoc.
  rewrite drop_app_length. rewrite (app_assoc pre d rest).
  rewrite drop_app_length. rewrite take_app_ge by done. f_equal.
Qed.

(** Any sequence of [Read]s through a limit of [m] bytes. *)
Lemma run_reads_limited ps : ∀ m k pre (dr : decodedReader SR) r' evs,
  mid Inv block n k pre dr → 0 ≤ m →
  Z.of_nat (length pre) + m ≤ Z.of_nat (length X) →
  run (Limited (Decoded dr) m) (OpRead <$> ps) = (r', evs) →
  let W := take (Z.to_nat m) (drop (length pre) X) in
  (Z.of_nat (length (bytesRead evs)) ≤ m
   ∧ pre ++ bytesRead evs `prefix_of` X
   ∧ ((countPos ps ≤ length (bytesRead evs))%nat
      ∨ (Z.of_nat (length (bytesRead evs)) = m
         ∧ last evs = Some (EvRead [] (Some EOF)))))
  ∧ (∀ i d e, evs !! i = Some (EvRead d (Some e)) →
       e = EOF ∧ d = [] ∧ bytesRead (take i evs) = W ∧
       ∀ j d' e', (i < j)%nat → evs !! j = Some (EvRead d' e') →
         d' = [] ∧ e' = Some EOF)
  ∧ (∀ i plen d, ps !! i = Some plen → (0 < plen)%nat →
       evs !! i = Some (EvRead d None) → d ≠ []).
Proof using dbs_pos n_range block_length ReadStripe_ok.
  induction ps as [|p ps IH]; intros m k pre dr r' evs Hmid Hm Hfit.
  - simpl. intros [= <- <-]. simpl. rewrite app_nil_r.
    split_and!; try done; try lia; try (by eapply mid_prefix).
    left. unfold countPos. simpl. lia.
  - destruct (decide (m = 0)) as [->|Hpos].
    { intros Hrun. apply run_limited_zero in Hrun as [-> ->]; [|done].
      rewrite bytesRead_replicate_nil, app_nil_r. simpl length.
      split_and!; try done.
      - by eapply mid_prefix.
      - right. split; [done|]. apply last_replicate_S.
      - intros i d0 e0 [[= -> ->] Hi]%lookup_replicate.
        rewrite take_replicate, bytesRead_replicate_nil.
        split_and!; try done;
          by intros j d' e' _ [[= -> ->] _]%lookup_replicate.
      - by intros i plen d0 _ _ [[=] _]%lookup_replicate. }
    destruct (Read_limited k pre dr m p Hmid) as
      (dr1 & d & k1 & Hrd & Hmid1 & Hdm & Hprog); [lia|done|].
    cbn [fmap list_fmap run step]. rewrite Hrd.
    destruct (run _ (OpRead <$> ps)) as [r2 evs'] eqn:Hrun.
    intros [= <- <-].
    destruct (IH (m - Z.of_nat (length d)) k1 (pre ++ d) dr1 r2 evs' Hmid1)
      as ((HA1 & HA2 & HA3) & HC & HD);
      [lia|rewrite length_app; lia|done|].
    cbn [bytesRead flat_map]. fold (bytesRead evs').
    rewrite length_app, app_assoc.
    assert (Hpd : pre ++ d `prefix_of` X) by (by eapply mid_prefix).
    assert (HW : take (Z.to_nat m) (drop (length pre) X) =
                 d ++ take (Z.to_nat (m - Z.of_nat (length d)))
                        (drop (length (pre ++ d)) X)).
    { rewrite (window_step pre d (Z.to_nat m)) by (done || lia).
      do 2 f_equal. lia. }
    split_and!; try done.
    + lia.
    + destruct HA3 as [Hc|[Hfull Hlast]]; [left|right].
      * assert (Hd : (0 < p)%nat → (0 < length d)%nat).
        { intros Hp. specialize (Hprog Hp). destruct d; simpl; [done|lia]. }
        unfold countPos in *. rewrite filter_cons.
        destruct (decide (0 < p)%nat) as [Hp|]; simpl; [specialize (Hd Hp)|]; lia.
      * split; [lia|]. destruct evs'; done.
    + intros [|i] d0 e0; simpl; [done|]. intros Hi.
      destruct (HC _ _ _ Hi) as (-> & -> & HWi & Hlater).
      split_and!; try done.
      * rewrite HWi. by rewrite HW.
      * intros [|j] d' e' Hij; [lia|]. simpl. apply Hlater. lia.
    + intros [|i] plen d0; simpl.
      * intros [= ->] Hp [= ->]. by apply Hprog.
      * apply HD.
Qed.
End Window.

Section RangeWindow.
Context {SR : Type} `{!StripeReaderOps SR}.
Variable checkMBM : Z → option error.
Variable NewStripeReader : gmap Z pieceStream → ErasureScheme → Z → SR.

Lemma prefix_window (pre b X : list byte) (m : nat) :
  pre ++ b `prefix_of` X → (length b ≤ m)%nat →
  b `prefix_of` take m (drop (length pre) X).
Proof.
  intros [rest ->] Hb. rewrite <- app_assoc, drop_app_length.
  rewrite take_app_ge by done. by apply prefix_app_r.
Qed.

(** The block window of [calcEncompassingBlocks] covers the byte window:
    with [head] the offset inside the first block, [head + len] bytes fit
    in the [bc] blocks. *)
Lemma window_cover (offset len dbs : Z) :
  0 < dbs → 0 ≤ offset → 0 < len → offset + len + dbs ≤ 2 ^ 63 →
  let fb := (calcEncompassingBlocks offset len dbs).1 in
  let bc := (calcEncompassingBlocks offset len dbs).2 in
  let head := offset - fb * dbs in
  0 ≤ head < dbs ∧ head + len ≤ bc * dbs < 2 ^ 63 ∧ 0 ≤ bc < 2 ^ 63
  ∧ 0 ≤ fb * dbs ≤ offset.
Proof.
  intros Hdbs Hoff Hlen Hrange. unfold calcEncompassingBlocks.
  destruct (Z.eqb_spec len 0); [lia|]. simpl.
  pose proof (Z.div_mod offset dbs ltac:(lia)) as Ho.
  pose proof (Z.mod_pos_bound offset dbs Hdbs) as Ho'.
  pose proof (Z.div_mod (- (offset + len)) dbs ltac:(lia)) as Hl.
  pose proof (Z.mod_pos_bound (- (offset + len)) dbs Hdbs) as Hl'.
  generalize dependent (offset / dbs).
  generalize dependent (offset mod dbs).
  generalize dependent (- (offset + len) / dbs).
  generalize dependent ((- (offset + len)) mod dbs).
  intros r Hr q Hq r0 Hr0 F HF.
  assert (0 ≤ F) by nia. assert (q < 0) by nia.
  split_and!; nia.
Qed.

(** X23: a non-empty window [offset, offset + length) of a decoded ranger whose
    stripes can all be read: [Range] returns a reader that delivers
    exactly the bytes of the window, cut out of the blocks that cover it,
    and then EOF. [block j] is the decoded block of stripe [j] of the whole
    stream; the stripe reader over the sub-ranges numbers them from
    [firstBlock]. *)
Lemma Range_window (block : Z → list byte) (Inv : SR → Prop)
    (dr : decodedRanger) (offset len : Z) :
  let dbs := DecodedBlockSize (es dr) in
  let ebs := EncodedBlockSize (es dr) in
  let fb := (calcEncompassingBlocks offset len dbs).1 in
  let bc := (calcEncompassingBlocks offset len dbs).2 in
  let rs : gmap Z pieceStream :=
    (λ rr, match rr_Range rr (wrap64 (fb * ebs)) (wrap64 (bc * ebs)) with
           | inl r => r
           | inr e => fatalPiece e
           end) <$> rrs dr in
  0 < dbs → checkMBM (mbm dr) = None →
  0 ≤ offset → 0 < len → offset + len + dbs ≤ 2 ^ 63 →
  Inv (NewStripeReader rs (es dr) (mbm dr)) →
  (∀ i, 0 ≤ i < bc → Z.of_nat (length (block (fb + i))) = dbs) →
  (∀ sr i p, Inv sr → 0 ≤ i < bc →
     ∃ sr', ReadStripe sr i p = (sr', (p ++ block (fb + i), None)) ∧ Inv sr') →
  ∀ fuel, (Z.to_nat dbs ≤ fuel)%nat →
  ∃ r, Range checkMBM NewStripeReader fuel dr offset len
         = Some (Done (inl r)) ∧
    let W := take (Z.to_nat len)
               (drop (Z.to_nat (offset - fb * dbs))
                  (decodedStream (λ i, block (fb + i)) (Z.to_nat bc))) in
    Z.of_nat (length W) = len ∧
    ∀ ps r' evs, run r (OpRead <$> ps) = (r', evs) →
      bytesRead evs `prefix_of` W
      ∧ (∀ i d e, evs !! i = Some (EvRead d (Some e)) →
           e = EOF ∧ d = [] ∧ bytesRead (take i evs) = W ∧
           ∀ j d' e', (i < j)%nat → evs !! j = Some (EvRead d' e') →
             d' = [] ∧ e' = Some EOF)
      ∧ (∀ i plen d, ps !! i = Some plen → (0 < plen)%nat →
           evs !! i = Some (EvRead d None) → d ≠ [])
      ∧ (len < Z.of_nat (countPos ps) →
           bytesRead evs = W ∧ last evs = Some (EvRead [] (Some EOF))).
Proof.
  intros dbs ebs fb bc rs Hdbs Hmbm Hoff Hlen Hrange HInv Hblk Hok fuel Hfuel.
  destruct (window_cover offset len dbs Hdbs Hoff Hlen Hrange)
    as (Hhead & Hcover & Hbc0 & Hfb0).
  fold fb bc in Hhead, Hcover, Hbc0, Hfb0.
  set (head := offset - fb * dbs) in *.
  assert (Hcalc : calcEncompassingBlocks offset len dbs = (fb, bc))
    by (subst fb bc; by destruct (calcEncompassingBlocks offset len dbs)).
  clearbody fb bc.
  (* the reader [DecodeReaders] builds *)
  unfold Range. fold dbs ebs. rewrite Hcalc. fold rs.
  rewrite (wrap64_id (bc * dbs)) by (unfold int64_range; lia).
  rewrite (wrap64_id (fb * dbs)) by (unfold int64_range; lia).
  fold head. rewrite (wrap64_id head) by (unfold int64_range; lia).
  unfold DecodeReaders. fold dbs.
  destruct (Z.ltb_spec (bc * dbs) 0); [lia|].
  destruct (Z.eqb_spec dbs 0); [lia|].
  rewrite Z.rem_mul, Z.quot_mul, Hmbm by lia. simpl.
  destruct (Z.ltb_spec dbs 0); [lia|].
  set (dr0 := {| readers := rs; outbuf := [] |}).
  set (blockW := λ i, block (fb + i)).
  assert (Hmid0 : mid Inv blockW bc 0 [] dr0)
    by (split_and!; simpl; try done; lia).
  assert (HX : Z.of_nat (length (decodedStream blockW (Z.to_nat bc)))
               = bc * dbs).
  { rewrite (decodedStream_length blockW dbs bc) by (done || lia). lia. }
  (* discarding the head *)
  unfold CopyN.
  destruct (discardReadFrom_mid blockW Inv dbs bc Hdbs Hbc0 Hblk Hok
              fuel head 0%nat [] dr0 0 Hmid0)
    as (dr1 & k1 & pre1 & -> & Hmid1 & Hpre1); [lia|simpl; lia|lia|].
  simpl in Hpre1. rewrite Z.add_0_l, Z.eqb_refl.
  eexists. split; [reflexivity|]. cbv zeta.
  replace (Z.to_nat head) with (length pre1) by lia.
  split.
  { rewrite length_take, length_drop. lia. }
  (* reading through the limit *)
  intros ps r' evs Hrun. unfold LimitReadCloser in Hrun.
  destruct (run_reads_limited blockW Inv dbs bc Hdbs Hbc0 Hblk Hok
              ps len k1 pre1 dr1 r' evs Hmid1)
    as ((HA1 & HA2 & HA3) & HC & HD); [lia|lia|done|].
  assert (Hpre : bytesRead evs `prefix_of`
            take (Z.to_nat len)
              (drop (length pre1) (decodedStream blockW (Z.to_nat bc)))).
  { apply prefix_window; [done|lia]. }
  split_and!; try done.
  intros Hcount. destruct HA3 as [?|[Hfull Hlast]]; [lia|]. split; [|done].
  apply prefix_length_eq; [done|].
  rewrite length_take, length_drop. lia.
Qed.
End RangeWindow.

(** The scenario [X = "ABCDEFGH"], [range(offset = 2, length = 5)]: the
    reader yields "CDEFG" and then EOF. *)
Lemma Range_2_5_yields_CDEFG :
  ∃ dr r,
    Decode checkNonNeg (map_to_list rangers01) rangers01 scheme24 0
      = Done (inl (DecodedRanger dr))
    ∧ Range checkNonNeg repNew 4 dr 2 5 = Some (Done (inl r))
    ∧ (run r [OpRead 3; OpRead 3; OpRead 10]).2
        = [EvRead (bytesOf "CD") None; EvRead (bytesOf "EFG") None;
           EvRead [] (Some EOF)].
Proof.
  eexists _, _. split; [reflexivity|]. split.
  - vm_compute. reflexivity.
  - vm_compute. reflexivity.
Qed.

(** *** Empty windows at offsets inside a block *)

(** C8: the ranger over two replicas of "ABCDEFGH" has size 8, and its
    [Range(5, 0)] returns no reader: the window covers zero blocks, the
    decoded reader is sized 0, and discarding the one head byte of the
    offset hits EOF, which [Range] wraps and returns as its error. *)
Theorem Range_5_0_returns_error :
  ∃ dr,
    Decode checkNonNeg (map_to_list rangers01) rangers01 scheme24 0
      = Done (inl (DecodedRanger dr))
    ∧ Size dr = Done 8
    ∧ calcEncompassingBlocks 5 0 (DecodedBlockSize (es dr)) = (1, 0)
    ∧ ∀ fuel, Range checkNonNeg repNew (S fuel) dr 5 0
        = Some (Done (inr (ErrWrap EOF))).
Proof.
  eexists. split; [reflexivity|]. split; [reflexivity|].
  split; [reflexivity|]. intros fuel. vm_compute. reflexivity.
Qed.

(** C2: on the same ranger the window of length 0 at offset 2 lies within
    [0 ≤ offset ≤ size()], its decoded bytes are the empty sequence, and
    [Range(2, 0)] returns the wrapped EOF of the head discard instead of a
    reader; the aligned [Range(4, 0)] returns the empty reader. *)
Theorem Range_2_0_returns_error :
  ∃ dr,
    Decode checkNonNeg (map_to_list rangers01) rangers01 scheme24 0
      = Done (inl (DecodedRanger dr))
    ∧ Size dr = Done 8
    ∧ (∀ fuel, Range checkNonNeg repNew (S fuel) dr 2 0
         = Some (Done (inr (ErrWrap EOF))))
    ∧ (∀ fuel, ∃ r, Range checkNonNeg repNew (S fuel) dr 4 0
         = Some (Done (inl r)) ∧ (rdRead r 4).2 = ([], Some EOF)).
Proof.
  eexists. split; [reflexivity|]. split; [reflexivity|]. split.
  - intros fuel. vm_compute. reflexivity.
  - intros fuel. eexists. split.
    + vm_compute. reflexivity.
    + vm_compute. reflexivity.
Qed.

(** ** The bolt client *)

(** C10: on the client [NewClient] returns for a new database file no
    bucket exists yet, so no key has a value stored; [Get] of any key then
    does not return a nil value with a nil error: [tx.Bucket] returns nil,
    [b.Get] dereferences it, and [Get] panics, the store left as it was. *)
Theorem Get_on_new_store_panics (key : string) :
  Bolt.db_buckets (Bolt.db freshClient) !! Bolt.Bucket freshClient = None
  ∧ Bolt.Get freshClient key = (freshClient, Panic NilDereference).
Proof.
  split; [reflexivity|].
  unfold Bolt.Get, Bolt.DB_Update, Bolt.Tx_Bucket, Bolt.Bucket_Get.
  reflexivity.
Qed.

(** X25: on an open, writable database in which the client's bucket
    exists, [Get] of a key that has no value in the bucket returns a nil
    value and a nil error, and leaves the client as it was. *)
Theorem Get_missing_key_nil_nil (c : Bolt.boltClient) (key : string)
    (b : gmap string (list byte)) :
  Bolt.db_opened (Bolt.db c) = true →
  Bolt.db_readOnly (Bolt.db c) = false →
  Bolt.db_buckets (Bolt.db c) !! Bolt.Bucket c = Some b →
  b !! key = None →
  Bolt.Get c key = (c, Done (None, None)).
Proof.
  destruct c as [[opened ro bs] path bucket]. simpl.
  intros -> -> Hb Hkey.
  unfold Bolt.Get, Bolt.DB_Update, Bolt.Tx_Bucket, Bolt.Bucket_Get. simpl.
  rewrite Hb. simpl. rewrite Hb. simpl. by rewrite Hkey.
Qed.

Lemma Get_missing_key_nil_nil_witness :
  Bolt.Get (Bolt.clientOf {[ "pointers" := {[ "a" := bytesOf "v" ]} ]}
              "pointers") "k"
    = (Bolt.clientOf {[ "pointers" := {[ "a" := bytesOf "v" ]} ]} "pointers",
       Done (None, None)).
Proof.
  apply (Get_missing_key_nil_nil _ "k" {[ "a" := bytesOf "v" ]});
    reflexivity.
Defined.

(** A stored value is returned as it is, with a nil error. *)
Lemma Get_stored_key (c : Bolt.boltClient) (key : string)
    (b : gmap string (list byte)) (v : list byte) :
  Bolt.db_opened (Bolt.db c) = true →
  Bolt.db_readOnly (Bolt.db c) = false →
  Bolt.db_buckets (Bolt.db c) !! Bolt.Bucket c = Some b →
  b !! key = Some v →
  Bolt.Get c key = (c, Done (Some v, None)).
Proof.
  destruct c as [[opened ro bs] path bucket]. simpl.
  intros -> -> Hb Hkey.
  unfold Bolt.Get, Bolt.DB_Update, Bolt.Tx_Bucket, Bolt.Bucket_Get. simpl.
  rewrite Hb. simpl. rewrite Hb. simpl. by rewrite Hkey.
Qed.

(** X22: [Put] creates the bucket when it is missing; [Get] does not: on a
    store whose bucket was never created [tx.Bucket] returns nil and
    [b.Get] dereferences it. *)
Lemma Get_without_bucket (c : Bolt.boltClient) (key : string) :
  Bolt.db_opened (Bolt.db c) = true →
  Bolt.db_readOnly (Bolt.db c) = false →
  Bolt.db_buckets (Bolt.db c) !! Bolt.Bucket c = None →
  (Bolt.Get c key).2 = Panic NilDereference.
Proof.
  destruct c as [[opened ro bs] path bucket]. simpl.
  intros -> -> Hb.
  unfold Bolt.Get, Bolt.DB_Update, Bolt.Tx_Bucket, Bolt.Bucket_Get. simpl.
  by rewrite Hb.
Qed.

Lemma Put_then_Get_other_key :
  (Bolt.Get (Bolt.Put (Bolt.clientOf ∅ "pointers") "a" (bytesOf "v")).1 "k").2
    = Done (None, None).
Proof. vm_compute. reflexivity. Qed.

(** ** More on the bolt client *)

Section BoltFacts.
Import Bolt.

(** What is stored under [key] in the client's bucket. *)
Local Abbreviation stored c key :=
  (db_buckets (db c) !! Bucket c ≫= λ m : gmap string (list byte), m !! key).

Lemma Get_live (c : boltClient) (key : string) :
  db_opened (db c) = true → db_readOnly (db c) = false →
  Get c key =
    (c, match db_buckets (db c) !! Bucket c with
        | Some m => Done (m !! key, None)
        | None => Panic NilDereference
        end).
Proof.
  destruct c as [[opened ro bs] path bucket]. simpl. intros -> ->.
  unfold Get, DB_Update, Tx_Bucket, Bucket_Get. simpl.
  destruct (bs !! bucket) as [m|] eqn:Hb; simpl; [|done].
  rewrite Hb. simpl. by destruct (m !! key).
Qed.

Lemma Put_live (c : boltClient) (key : string) (v : list byte) :
  db_opened (db c) = true → db_readOnly (db c) = false →
  Bucket c ≠ "" → key ≠ "" →
  Z.of_nat (String.length key) ≤ MaxKeySize →
  Z.of_nat (length v) ≤ MaxValueSize →
  Put c key v =
    (set_db c {| db_opened := true; db_readOnly := false;
                 db_buckets :=
                   <[Bucket c := <[key := v]>
                      (default ∅ (db_buckets (db c) !! Bucket c))]>
                     (db_buckets (db c)) |},
     Done None).
Proof.
  destruct c as [[opened ro bs] path bucket]. simpl.
  intros -> -> Hb Hk Hkl Hvl.
  unfold Put, DB_Update, Tx_CreateBucketIfNotExists, Bucket_Put. simpl.
  rewrite bool_decide_false by done.
  destruct (bs !! bucket) as [m|] eqn:Hbs; simpl;
    rewrite (bool_decide_false (key = "")) by done;
    destruct (Z.ltb_spec MaxKeySize (Z.of_nat (String.length key))); try lia;
    destruct (Z.ltb_spec MaxValueSize (Z.of_nat (length v))); try lia;
    simpl; do 3 f_equal; apply map_eq; intros name;
    destruct (decide (name = bucket)) as [->|Hne].
  - by rewrite lookup_alter_eq, lookup_insert_eq, Hbs.
  - by rewrite lookup_alter_ne, lookup_insert_ne.
  - by rewrite lookup_alter_eq, !lookup_insert_eq.
  - by rewrite lookup_alter_ne, !lookup_insert_ne.
Qed.

Lemma Delete_live (c : boltClient) (key : string) :
  db_opened (db c) = true → db_readOnly (db c) = false →
  Delete c key =
    match db_buckets (db c) !! Bucket c with
    | Some m =>
      (set_db c {| db_opened := true; db_readOnly := false;
                   db_buckets := <[Bucket c := delete key m]>
                                   (db_buckets (db c)) |},
       Done None)
    | None => (c, Panic NilDereference)
    end.
Proof.
  destruct c as [[opened ro bs] path bucket]. simpl. intros -> ->.
  unfold Delete, DB_Update, Tx_Bucket, Bucket_Delete. simpl.
  destruct (bs !! bucket) as [m|] eqn:Hb; simpl; [|done].
  do 3 f_equal. apply map_eq. intros name.
  destruct (decide (name = bucket)) as [->|Hne].
  - by rewrite lookup_alter_eq, lookup_insert_eq, Hb.
  - by rewrite lookup_alter_ne, lookup_insert_ne.
Qed.

(** X1: on an open database, a [Put] with a non-empty bucket name and a
    key and value within bolt's limits succeeds, creating the bucket when
    it is missing, and a [Get] of the same key then returns the value that
    was put, with a nil error. *)
Theorem Put_then_Get (c : boltClient) (key : string) (v : list byte) :
  db_opened (db c) = true → db_readOnly (db c) = false →
  Bucket c ≠ "" → key ≠ "" →
  Z.of_nat (String.length key) ≤ MaxKeySize →
  Z.of_nat (length v) ≤ MaxValueSize →
  (Put c key v).2 = Done None
  ∧ Get (Put c key v).1 key = ((Put c key v).1, Done (Some v, None)).
Proof.
  intros Ho Hr Hb Hk Hkl Hvl. rewrite Put_live by done. simpl.
  split; [done|]. rewrite Get_live by done. simpl.
  by rewrite lookup_insert_eq, lookup_insert_eq.
Qed.

(** X2: a successful [Put] changes nothing but the entry it writes: every
    other key of the client's bucket keeps what was stored under it, and
    every other bucket is as it was. *)
Theorem Put_keeps_other_entries (c : boltClient) (key : string)
    (v : list byte) :
  db_opened (db c) = true → db_readOnly (db c) = false →
  Bucket c ≠ "" → key ≠ "" →
  Z.of_nat (String.length key) ≤ MaxKeySize →
  Z.of_nat (length v) ≤ MaxValueSize →
  (∀ key', key' ≠ key →
     Get (Put c key v).1 key' = ((Put c key v).1, Done (stored c key', None)))
  ∧ (∀ name, name ≠ Bucket c →
       db_buckets (db (Put c key v).1) !! name = db_buckets (db c) !! name).
Proof.
  intros Ho Hr Hb Hk Hkl Hvl. rewrite Put_live by done. simpl. split.
  - intros key' Hne. rewrite Get_live by done. simpl.
    rewrite lookup_insert_eq, lookup_insert_ne by done.
    by destruct (db_buckets (db c) !! Bucket c).
  - intros name Hne. by rewrite lookup_insert_ne.
Qed.

(** X3: [Put] never panics, and a [Put] that returns an error leaves the
    client and its database as they were: the transaction is rolled back,
    so a bucket created for the failed write is not kept. *)
Theorem Put_error_rolls_back (c : boltClient) (key : string)
    (v : list byte) :
  (∀ p, (Put c key v).2 ≠ Panic p)
  ∧ ((Put c key v).2 ≠ Done None → (Put c key v).1 = c).
Proof.
  destruct c as [[opened ro bs] path bucket].
  unfold Put, DB_Update, Tx_CreateBucketIfNotExists, Bucket_Put, set_db.
  simpl.
  assert (Hfin : ∀ (r : outcome (option error)) (c1 c2 : boltClient),
    (∃ e, r = Done e ∧ (e = None ∨ c1 = c2)) →
    (∀ p, r ≠ Panic p) ∧ (r ≠ Done None → c1 = c2)).
  { intros r c1 c2 (e & -> & [-> | ->]); split; congruence. }
  destruct opened, ro; simpl;
    try (apply Hfin; eexists; split; [reflexivity|by right]).
  case_bool_decide; simpl;
    [apply Hfin; eexists; split; [reflexivity|by right]|].
  destruct (bs !! bucket); simpl;
    repeat (case_match; simplify_eq/=);
    apply Hfin; eexists; (split; [reflexivity|]);
    first [by left|by right].
Qed.

(** X4: a [Delete] on an open database whose bucket exists returns nil,
    also when the key was not stored; afterwards [Get] of that key returns
    a nil value and a nil error, and every other key keeps its value. *)
Theorem Delete_then_Get (c : boltClient) (key : string)
    (m : gmap string (list byte)) :
  db_opened (db c) = true → db_readOnly (db c) = false →
  db_buckets (db c) !! Bucket c = Some m →
  (Delete c key).2 = Done None
  ∧ Get (Delete c key).1 key = ((Delete c key).1, Done (None, None))
  ∧ (∀ key', key' ≠ key →
       Get (Delete c key).1 key' = ((Delete c key).1, Done (m !! key', None))).
Proof.
  intros Ho Hr Hb. rewrite Delete_live, Hb by done. simpl.
  split; [done|]. split.
  - rewrite Get_live by done. simpl.
    by rewrite lookup_insert_eq, lookup_delete_eq.
  - intros key' Hne. rewrite Get_live by done. simpl.
    by rewrite lookup_insert_eq, lookup_delete_ne.
Qed.

(** X5: on an open database whose bucket was never created, [Delete],
    [List] and [ReverseList] dereference the nil bucket and panic, whatever
    their arguments, and leave the database as it was. *)
Theorem Delete_List_without_bucket (c : boltClient) (key : string)
    (startingKey : option string) (limit : Z) :
  db_opened (db c) = true → db_readOnly (db c) = false →
  db_buckets (db c) !! Bucket c = None →
  Delete c key = (c, Panic NilDereference)
  ∧ List c startingKey limit = (c, Panic NilDereference)
  ∧ ReverseList c startingKey limit = (c, Panic NilDereference).
Proof.
  intros Ho Hr Hb. rewrite Delete_live, Hb by done. split; [done|].
  destruct c as [[opened ro bs] path bucket]. simpl in *. subst.
  unfold List, ReverseList, listHelper, DB_Update, Tx_Bucket, Bucket_Cursor.
  simpl. by rewrite Hb.
Qed.

(** X6: once the client is closed, [Put], [Get], [Delete], [List] and
    [ReverseList] all return bolt's "database not open" error, with no
    value and no keys, and change nothing. *)
Theorem operations_after_Close (c : boltClient) (key : string)
    (v : list byte) (startingKey : option string) (limit : Z) :
  let c' := (Close c).1 in
  (Close c).2 = None
  ∧ Put c' key v = (c', Done (Some ErrDatabaseNotOpen))
  ∧ Get c' key = (c', Done (None, Some ErrDatabaseNotOpen))
  ∧ Delete c' key = (c', Done (Some ErrDatabaseNotOpen))
  ∧ List c' startingKey limit = (c', Done ([], Some ErrDatabaseNotOpen))
  ∧ ReverseList c' startingKey limit
      = (c', Done ([], Some ErrDatabaseNotOpen)).
Proof. destruct c as [[opened ro bs] path bucket]. done. Qed.

(** X7: [Get], [List] and [ReverseList] never change the client or its
    database, whether they return, fail or panic. *)
Theorem reads_leave_store (c : boltClient) (key : string)
    (startingKey : option string) (limit : Z) :
  (Get c key).1 = c
  ∧ (List c startingKey limit).1 = c
  ∧ (ReverseList c startingKey limit).1 = c.
Proof.
  destruct c as [[opened ro bs] path bucket].
  unfold List, ReverseList, listHelper, Get, DB_Update, Tx_Bucket,
    Bucket_Cursor, Bucket_Get, set_db. simpl.
  destruct opened, ro; simpl; try done.
  destruct (bs !! bucket) eqn:Hb; simpl; [|done].
  split_and!; repeat (case_match; simplify_eq; simpl); done.
Qed.
End BoltFacts.

(** *** Listing keys *)

Lemma filter_drop_index {A} (P : A → Prop) `{!∀ x, Decision (P x)}
    (l : list A) : ∀ i,
  (∀ j y, l !! j = Some y → (j < i → ¬ P y)%nat ∧ (i ≤ j → P y)%nat) →
  filter P l = drop i l.
Proof.
  induction l as [|x l IH]; intros i Hl; [by rewrite drop_nil|].
  rewrite filter_cons. destruct i as [|i].
  - rewrite decide_True by (apply (Hl 0%nat); [done|lia]).
    rewrite (IH 0%nat); [done|]. intros j y Hj.
    split; [lia|]. intros _. apply (Hl (S j)); [done|lia].
  - rewrite decide_False by (apply (Hl 0%nat); [done|lia]).
    simpl. apply IH. intros j y Hj. destruct (Hl (S j) y Hj) as [H1 H2].
    split; intros ?; [apply H1|apply H2]; lia.
Qed.

Lemma filter_take_index {A} (P : A → Prop) `{!∀ x, Decision (P x)}
    (l : list A) : ∀ i,
  (∀ j y, l !! j = Some y → (j < i → P y)%nat ∧ (i ≤ j → ¬ P y)%nat) →
  filter P l = take i l.
Proof.
  induction l as [|x l IH]; intros i Hl; [by rewrite take_nil|].
  rewrite filter_cons. destruct i as [|i].
  - rewrite decide_False by (apply (Hl 0%nat); [done|lia]).
    rewrite (IH 0%nat); [done|]. intros j y Hj.
    split; [lia|]. intros _. apply (Hl (S j)); [done|lia].
  - rewrite decide_True by (apply (Hl 0%nat); [done|lia]).
    simpl. f_equal. apply IH. intros j y Hj.
    destruct (Hl (S j) y Hj) as [H1 H2].
    split; intros ?; [apply H1|apply H2]; lia.
Qed.

Lemma StronglySorted_lookup_le {A} (R : relation A) (l : list A) :
  StronglySorted R l → ∀ i j x y,
  l !! i = Some x → l !! j = Some y → (i < j)%nat → R x y.
Proof.
  induction 1 as [|x0 l Hl IH Hall]; intros i j x y Hi Hj Hij; [done|].
  destruct j as [|j]; [lia|]. simpl in Hj. destruct i as [|i].
  - simpl in Hi. injection Hi as <-.
    rewrite Forall_forall in Hall. apply Hall.
    by eapply list_elem_of_lookup_2.
  - simpl in Hi. eapply IH; eauto. lia.
Qed.

Section BoltListFacts.
Import Bolt.

Lemma sortedKeys_sorted (m : gmap string (list byte)) :
  StronglySorted String.le (sortedKeys m).
Proof. apply StronglySorted_merge_sort; apply _. Qed.

Lemma sortedKeys_NoDup (m : gmap string (list byte)) : NoDup (sortedKeys m).
Proof.
  unfold sortedKeys. rewrite merge_sort_Permutation.
  apply NoDup_fst_map_to_list.
Qed.

Lemma elem_of_sortedKeys (m : gmap string (list byte)) (k : string) :
  k ∈ sortedKeys m ↔ is_Some (m !! k).
Proof.
  unfold sortedKeys. rewrite merge_sort_Permutation, list_elem_of_fmap.
  split.
  - intros ([k' v] & -> & Hin). apply elem_of_map_to_list in Hin. by eexists.
  - intros [v Hv]. exists (k, v). split; [done|].
    by apply elem_of_map_to_list.
Qed.

(** Two keys of a bucket in cursor order are different and ascending. *)
Lemma sortedKeys_lookup_lt (m : gmap string (list byte)) i j x y :
  sortedKeys m !! i = Some x → sortedKeys m !! j = Some y → (i < j)%nat →
  String.le x y ∧ x ≠ y.
Proof.
  intros Hi Hj Hij. split.
  - eapply StronglySorted_lookup_le; eauto using sortedKeys_sorted.
  - intros ->. pose proof (sortedKeys_NoDup m) as Hnd.
    rewrite NoDup_alt in Hnd. specialize (Hnd i j y Hi Hj). lia.
Qed.

Lemma Cursor_at_lookup cur i k :
  cur_keys cur !! i = Some k →
  Cursor_at cur i = ({| cur_keys := cur_keys cur; cur_pos := Some i |}, Some k).
Proof. unfold Cursor_at. by intros ->. Qed.

(** The loop walking forward from index [i]. *)
Lemma listLoop_forward ks limit : ∀ fuel i pos paths,
  (length ks - i < fuel)%nat →
  limit ≤ 0 ∨ Z.of_nat (length paths) < limit →
  listLoop fuel Cursor_Next
    (Cursor_at {| cur_keys := ks; cur_pos := pos |} i).1
    (Cursor_at {| cur_keys := ks; cur_pos := pos |} i).2 paths limit
  = paths ++ (if 0 <? limit
              then take (Z.to_nat limit - length paths) (drop i ks)
              else drop i ks).
Proof.
  induction fuel as [|fuel IH]; intros i pos paths Hfuel Hlim; [lia|].
  unfold Cursor_at at 1 2. simpl cur_keys.
  destruct (ks !! i) as [k|] eqn:Hk; simpl.
  - rewrite (drop_S _ _ _ Hk). rewrite length_app. simpl.
    destruct (Z.ltb_spec 0 limit) as [Hpos|Hnp]; simpl.
    + destruct (Z.eqb_spec limit (Z.of_nat (length paths + 1))) as [He|Hne].
      * replace (Z.to_nat limit - length paths)%nat with 1%nat by lia.
        simpl. by rewrite take_0.
      * change (Cursor_Next {| cur_keys := ks; cur_pos := Some i |})
          with (Cursor_at {| cur_keys := ks; cur_pos := Some i |} (S i)).
        destruct (Cursor_at _ (S i)) as [cur' k'] eqn:Hat.
        pose proof (IH (S i) (Some i) (paths ++ [k])) as IH'.
        rewrite Hat in IH'. simpl in IH'. rewrite IH'.
        -- rewrite length_app. simpl.
           destruct (Z.ltb_spec 0 limit); [|lia].
           replace (Z.to_nat limit - length paths)%nat
             with (S (Z.to_nat limit - (length paths + 1)))%nat by lia.
           simpl. by rewrite <- app_assoc.
        -- apply lookup_lt_Some in Hk. lia.
        -- rewrite length_app. simpl. lia.
    + change (Cursor_Next {| cur_keys := ks; cur_pos := Some i |})
        with (Cursor_at {| cur_keys := ks; cur_pos := Some i |} (S i)).
      destruct (Cursor_at _ (S i)) as [cur' k'] eqn:Hat.
      pose proof (IH (S i) (Some i) (paths ++ [k])) as IH'.
      rewrite Hat in IH'. simpl in IH'. rewrite IH'.
      * destruct (Z.ltb_spec 0 limit); [lia|]. by rewrite <- app_assoc.
      * apply lookup_lt_Some in Hk. lia.
      * left. lia.
  - apply lookup_ge_None in Hk. rewrite drop_ge by done.
    rewrite take_nil. by destruct (0 <? limit); rewrite app_nil_r.
Qed.

(** The loop walking backward from index [i]. *)
Lemma listLoop_backward ks limit : ∀ i fuel paths k,
  ks !! i = Some k → (i < fuel)%nat →
  limit ≤ 0 ∨ Z.of_nat (length paths) < limit →
  listLoop fuel Cursor_Prev {| cur_keys := ks; cur_pos := Some i |}
    (Some k) paths limit
  = paths ++ (if 0 <? limit
              then take (Z.to_nat limit - length paths)
                     (reverse (take (S i) ks))
              else reverse (take (S i) ks)).
Proof.
  induction i as [|i IH]; intros fuel paths k Hk Hfuel Hlim;
    (destruct fuel as [|fuel]; [lia|]);
    rewrite (take_S_r _ _ _ Hk), reverse_snoc; cbn [listLoop];
    rewrite length_app; cbn [length].
  - rewrite take_0. change (reverse []) with (@nil string).
    change (Cursor_Prev {| cur_keys := ks; cur_pos := Some 0%nat |})
      with ({| cur_keys := ks; cur_pos := None |}, @None string).
    destruct (Z.ltb_spec 0 limit) as [Hpos|Hnp]; cbn [andb].
    + replace (Z.to_nat limit - length paths)%nat
        with (S (Z.to_nat limit - length paths - 1))%nat by lia.
      cbn [take]. rewrite take_nil.
      by destruct (limit =? Z.of_nat (length paths + 1)), fuel.
    + by destruct fuel.
  - destruct (lookup_lt_is_Some_2 ks i) as [k' Hk'];
      [apply lookup_lt_Some in Hk; lia|].
    change (Cursor_Prev {| cur_keys := ks; cur_pos := Some (S i) |})
      with (Cursor_at {| cur_keys := ks; cur_pos := Some (S i) |} i).
    rewrite (Cursor_at_lookup _ i k') by done. cbn [cur_keys].
    destruct (Z.ltb_spec 0 limit) as [Hpos|Hnp]; cbn [andb].
    + replace (Z.to_nat limit - length paths)%nat
        with (S (Z.to_nat limit - (length paths + 1)))%nat by lia.
      cbn [take].
      destruct (Z.eqb_spec limit (Z.of_nat (length paths + 1))) as [He|Hne].
      * replace (Z.to_nat limit - (length paths + 1))%nat with 0%nat by lia.
        by rewrite take_0.
      * rewrite (IH fuel (paths ++ [k]) k' Hk') by
          (rewrite ?length_app; simpl; lia).
        rewrite length_app. cbn [length].
        destruct (Z.ltb_spec 0 limit); [|lia]. by rewrite <- app_assoc.
    + rewrite (IH fuel (paths ++ [k]) k' Hk') by (lia || (left; lia)).
      destruct (Z.ltb_spec 0 limit); [lia|]. by rewrite <- app_assoc.
Qed.

Lemma listLoop_None fuel iterate cur paths limit :
  listLoop fuel iterate cur None paths limit = paths.
Proof. by destruct fuel. Qed.

Local Arguments listLoop : simpl never.

(** What [listHelper] returns on an open database whose bucket exists. *)
Lemma listHelper_live (c : boltClient) (reverseList : bool)
    (startingKey : option string) (limit : Z)
    (m : gmap string (list byte)) :
  db_opened (db c) = true → db_readOnly (db c) = false →
  db_buckets (db c) !! Bucket c = Some m →
  listHelper c reverseList startingKey limit =
    (c, Done (let l := walked reverseList startingKey (sortedKeys m) in
              if 0 <? limit then take (Z.to_nat limit) l else l, None)).
Proof.
  destruct c as [[opened ro bs] path bucket]. simpl. intros -> -> Hb.
  unfold listHelper, DB_Update, Tx_Bucket, Bucket_Cursor, set_db. simpl.
  rewrite Hb. simpl. rewrite Hb. simpl. do 3 f_equal.
  set (ks := sortedKeys m).
  assert (Hlim : limit ≤ 0 ∨ Z.of_nat (length (@nil string)) < limit)
    by (simpl; lia).
  destruct startingKey as [s|], reverseList; simpl.
  - unfold Cursor_Seek. simpl.
    destruct (list_find (String.le s) ks) as [[i k]|] eqn:Hfind; simpl.
    + apply list_find_Some in Hfind as (Hk & _ & _).
      rewrite (listLoop_backward ks limit i _ [] k Hk) by
        (done || (apply lookup_lt_Some in Hk; lia)).
      simpl. by rewrite Nat.sub_0_r.
    + rewrite listLoop_None, take_nil. by destruct (0 <? limit).
  - unfold Cursor_Seek. simpl.
    destruct (list_find (String.le s) ks) as [[i k]|] eqn:Hfind; simpl.
    + apply list_find_Some in Hfind as (Hk & _ & _).
      pose proof (listLoop_forward ks limit (S (length ks)) i None []) as Hf.
      rewrite (Cursor_at_lookup _ i k) in Hf by done. simpl in Hf.
      rewrite Hf by (done || lia). simpl. by rewrite Nat.sub_0_r.
    + rewrite listLoop_None, take_nil. by destruct (0 <? limit).
  - unfold Cursor_Last. simpl.
    destruct (length ks) as [|n] eqn:Hlen.
    + destruct ks; [|done]. rewrite listLoop_None, reverse_nil, take_nil.
      by destruct (0 <? limit).
    + destruct (lookup_lt_is_Some_2 ks n) as [k Hk]; [lia|].
      rewrite (Cursor_at_lookup _ n k) by done.
      rewrite (listLoop_backward ks limit n _ [] k Hk) by (done || lia).
      simpl. rewrite Nat.sub_0_r.
      by rewrite (take_ge ks (S n)) by lia.
  - unfold Cursor_First.
    pose proof (listLoop_forward ks limit (S (length ks)) 0%nat None []) as Hf.
    destruct (Cursor_at _ 0%nat) as [cur' k'] eqn:Hat. simpl in Hf.
    rewrite Hf by (done || lia). simpl. by rewrite Nat.sub_0_r.
Qed.

(** X8: on an open database whose bucket exists, [List] from the nil key
    without a limit ([limit <= 0]) returns, with a nil error, every key of
    the bucket exactly once, in ascending byte order. *)
Theorem List_all_keys_ascending (c : boltClient) (limit : Z)
    (m : gmap string (list byte)) :
  db_opened (db c) = true → db_readOnly (db c) = false →
  db_buckets (db c) !! Bucket c = Some m → limit ≤ 0 →
  ∃ ks, List c None limit = (c, Done (ks, None))
    ∧ Sorted String.le ks ∧ NoDup ks
    ∧ ∀ k, k ∈ ks ↔ is_Some (m !! k).
Proof.
  intros Ho Hr Hb Hlim. exists (sortedKeys m). unfold List.
  rewrite (listHelper_live c false None limit m) by done. simpl.
  destruct (Z.ltb_spec 0 limit); [lia|]. split_and!; [done| | |].
  - apply StronglySorted_Sorted, sortedKeys_sorted.
  - apply sortedKeys_NoDup.
  - apply elem_of_sortedKeys.
Qed.

(** X9: a positive [limit] cuts a listing short and changes nothing else:
    [List] and [ReverseList] with [limit > 0] return the first [limit]
    keys of what the same call returns without a limit (all of them when
    there are fewer). *)
Theorem listHelper_limit_prefix (c : boltClient) (reverseList : bool)
    (startingKey : option string) (limit : Z)
    (m : gmap string (list byte)) :
  db_opened (db c) = true → db_readOnly (db c) = false →
  db_buckets (db c) !! Bucket c = Some m → 0 < limit →
  ∃ ks, listHelper c reverseList startingKey 0 = (c, Done (ks, None))
    ∧ listHelper c reverseList startingKey limit
        = (c, Done (take (Z.to_nat limit) ks, None)).
Proof.
  intros Ho Hr Hb Hlim.
  exists (walked reverseList startingKey (sortedKeys m)).
  rewrite !(listHelper_live c reverseList startingKey _ m) by done. simpl.
  by destruct (Z.ltb_spec 0 limit); [|lia].
Qed.

(** X10: [List] from a starting key, without a limit, returns exactly the
    keys of the bucket that are not below the starting key, in ascending
    order, whether or not the starting key itself is stored. *)
Theorem List_from_key (c : boltClient) (s : string) (limit : Z)
    (m : gmap string (list byte)) :
  db_opened (db c) = true → db_readOnly (db c) = false →
  db_buckets (db c) !! Bucket c = Some m → limit ≤ 0 →
  List c (Some s) limit
    = (c, Done (filter (String.le s) (sortedKeys m), None)).
Proof.
  intros Ho Hr Hb Hlim. unfold List.
  rewrite (listHelper_live c false (Some s) limit m) by done. simpl.
  destruct (Z.ltb_spec 0 limit); [lia|]. do 3 f_equal.
  destruct (list_find _ _) as [[i k]|] eqn:Hfind.
  - apply list_find_Some in Hfind as (Hk & Hsk & Hbefore).
    symmetry. apply filter_drop_index. intros j y Hj. split.
    + intros Hlt. by eapply Hbefore.
    + intros Hle. destruct (decide (j = i)) as [->|Hne]; [congruence|].
      trans k; [done|].
      eapply (sortedKeys_lookup_lt m i j); eauto. lia.
  - apply list_find_None in Hfind. rewrite Forall_forall in Hfind.
    rewrite (filter_drop_index _ _ (length (sortedKeys m))).
    + by rewrite drop_all.
    + intros j y Hj. split.
      * intros _. apply Hfind. by eapply list_elem_of_lookup_2.
      * apply lookup_lt_Some in Hj. lia.
Qed.

(** X11: without a starting key and without a limit, [ReverseList] returns
    the keys [List] returns, in the opposite order. *)
Theorem ReverseList_reverses_List (c : boltClient) (limit : Z)
    (m : gmap string (list byte)) :
  db_opened (db c) = true → db_readOnly (db c) = false →
  db_buckets (db c) !! Bucket c = Some m → limit ≤ 0 →
  ∃ ks, List c None limit = (c, Done (ks, None))
    ∧ ReverseList c None limit = (c, Done (reverse ks, None)).
Proof.
  intros Ho Hr Hb Hlim. exists (sortedKeys m). unfold List, ReverseList.
  rewrite !(listHelper_live c _ None limit m) by done. simpl.
  by destruct (Z.ltb_spec 0 limit); [lia|].
Qed.

(** X12: [ReverseList] from a starting key that is stored in the bucket,
    without a limit, returns exactly the keys that are not above it, in
    descending order, the starting key first. *)
Theorem ReverseList_from_stored_key (c : boltClient) (s : string)
    (limit : Z) (m : gmap string (list byte)) :
  db_opened (db c) = true → db_readOnly (db c) = false →
  db_buckets (db c) !! Bucket c = Some m → limit ≤ 0 →
  is_Some (m !! s) →
  ReverseList c (Some s) limit
    = (c, Done (reverse (filter (λ k, String.le k s) (sortedKeys m)), None)).
Proof.
  intros Ho Hr Hb Hlim Hs. unfold ReverseList.
  rewrite (listHelper_live c true (Some s) limit m) by done. simpl.
  destruct (Z.ltb_spec 0 limit); [lia|]. do 3 f_equal.
  apply elem_of_sortedKeys, list_elem_of_lookup in Hs as [j0 Hj0].
  destruct (list_find _ _) as [[i k]|] eqn:Hfind.
  2:{ apply list_find_None in Hfind. rewrite Forall_forall in Hfind.
      destruct (Hfind s); [by eapply list_elem_of_lookup_2|done]. }
  apply list_find_Some in Hfind as (Hk & Hsk & Hbefore).
  assert (j0 = i) as ->.
  { destruct (Nat.lt_total j0 i) as [Hlt|[->|Hgt]]; [|done|].
    - destruct (Hbefore j0 s Hj0 Hlt). done.
    - destruct (sortedKeys_lookup_lt m i j0 k s Hk Hj0 Hgt) as [Hks Hne].
      destruct Hne. by apply (anti_symm String.le). }
  assert (k = s) as -> by congruence.
  f_equal. symmetry. apply filter_take_index. intros j y Hj. split.
  - intros Hlt. destruct (decide (j = i)) as [->|Hne]; [by simplify_eq|].
    eapply (sortedKeys_lookup_lt m j i); eauto. lia.
  - intros Hge Hys.
    destruct (sortedKeys_lookup_lt m i j s y Hk Hj) as [Hsy Hne]; [lia|].
    destruct Hne. by apply (anti_symm String.le).
Qed.

(** X13: [ReverseList] from a starting key that is not stored seeks
    forward: when no key of the bucket is above the starting key it
    returns no key at all, although the bucket may hold keys below it;
    otherwise the listing begins with a stored key strictly above the
    starting key. *)
Theorem ReverseList_from_absent_key (c : boltClient) (s : string)
    (limit : Z) (m : gmap string (list byte)) :
  db_opened (db c) = true → db_readOnly (db c) = false →
  db_buckets (db c) !! Bucket c = Some m → limit ≤ 0 →
  m !! s = None →
  ∃ ks, ReverseList c (Some s) limit = (c, Done (ks, None))
    ∧ ((∀ k, is_Some (m !! k) → ¬ String.le s k) → ks = [])
    ∧ (∀ k0, is_Some (m !! k0) → String.le s k0 →
         ∃ k1 rest, ks = k1 :: rest ∧ is_Some (m !! k1)
           ∧ String.le s k1 ∧ k1 ≠ s).
Proof.
  intros Ho Hr Hb Hlim Hs. unfold ReverseList.
  rewrite (listHelper_live c true (Some s) limit m) by done. simpl.
  destruct (Z.ltb_spec 0 limit); [lia|]. eexists. split; [reflexivity|].
  destruct (list_find _ _) as [[i k]|] eqn:Hfind.
  - apply list_find_Some in Hfind as (Hk & Hsk & Hbefore).
    assert (Hkm : is_Some (m !! k)).
    { apply elem_of_sortedKeys. by eapply list_elem_of_lookup_2. }
    split.
    + intros Hnone. by destruct (Hnone k).
    + intros _ _ _. rewrite (take_S_r _ _ _ Hk), reverse_snoc.
      eexists _, _. split_and!; try done.
      intros ->. rewrite Hs in Hkm. by destruct Hkm.
  - apply list_find_None in Hfind. rewrite Forall_forall in Hfind.
    split; [done|]. intros k0 Hk0 Hsk0.
    destruct (Hfind k0); [by apply elem_of_sortedKeys|done].
Qed.
End BoltListFacts.

(** ** More on the decoder *)

Section DecoderMore.
Context {SR : Type} `{!StripeReaderOps SR}.
Variable checkMBM : Z → option error.
Variable NewStripeReader : gmap Z pieceStream → ErasureScheme → Z → SR.


(** X15: on a reader that [DecodeReaders] built over a map whose keys all
    lie in [0 .. len(rs)], in any interleaving of [Read] and [Close] calls
    and whatever order the map is iterated in, every [Close] returns the
    same aggregate, and once [Close] was called each piece stream and the
    stripe reader have received exactly one [Close]. *)
Theorem Close_exactly_once rs es0 expectedSize mbm0 dr0 ops r' evs :
  DecodeReaders checkMBM NewStripeReader rs es0 expectedSize mbm0 = Done (Decoded dr0) →
  (∀ k, is_Some (rs !! k) → 0 ≤ k ≤ Z.of_nat (size rs)) →
  (∀ its, OpClose its ∈ ops → its ≡ₚ map_to_list rs) →
  run (Decoded dr0) ops = (r', evs) →
  ∃ agg,
    (∀ i res, evs !! i = Some (EvClose res) → res = Done agg)
    ∧ ((∃ its, OpClose its ∈ ops) →
       (∀ k r, rs !! k = Some r →
          ps_closed <$> streamsOf rs r' !! k = Some (S (ps_closed r)))
       ∧ srClosesOf r' = 1%nat).
Proof.
  intros HD Hkeys Hits Hrun.
  assert (Hopen : stillOpen rs (Decoded dr0)).
  { unfold DecodeReaders, FatalReadCloser in HD.
    repeat (case_match; simplify_eq). done. }
  destruct (run_close_once rs ops _ _ _ Hopen Hkeys Hits Hrun)
    as (agg & Hevs & Hfin).
  exists agg. split; [done|]. intros Hc.
  destruct (Hfin Hc) as [-> ->]. split; [|done].
  intros k r Hk. by rewrite lookup_fmap, Hk.
Qed.

(** X16: when some key of the reader map lies outside [0 .. len(rs)], the
    first [Close] panics in whatever order the map is iterated, before the
    stripe reader is closed; the latch is set all the same, so every later
    [Close] returns the nil aggregate without closing anything. *)
Theorem Close_key_out_of_range_panics (dr : decodedReader SR) its k :
  closeDone dr = false →
  its ≡ₚ map_to_list (readers dr) →
  is_Some (readers dr !! k) →
  ¬ (0 ≤ k ≤ Z.of_nat (size (readers dr))) →
  ∃ dr' p,
    Close dr its = (dr', Panic p)
    ∧ srCloses dr' = srCloses dr
    ∧ stripeReader dr' = stripeReader dr
    ∧ ∀ its', Close dr' its' = (dr', Done (closeErr dr)).
Proof.
  intros Hopen Hperm [r Hr] Hk. unfold Close. rewrite Hopen.
  destruct (closeReaders_out_of_range its (readers dr)
              (replicate (size (readers dr) + 1) None)) as (rs' & p & ->).
  { exists k, r. split.
    - rewrite Hperm. by apply elem_of_map_to_list.
    - rewrite length_replicate. lia. }
  eexists _, p. split; [reflexivity|]. done.
Qed.

(** *** The construction checks of [Decode] *)

Lemma sizeLoop_from (its : list (Z * pieceRanger)) : ∀ sz,
  sz ≠ -1 → Forall (λ kv, rr_Size kv.2 ≠ -1) its →
  (Forall (λ kv, rr_Size kv.2 = sz) its → sizeLoop its sz = inl sz)
  ∧ (¬ Forall (λ kv, rr_Size kv.2 = sz) its →
     sizeLoop its sz = inr ErrSizesDontMatch).
Proof.
  induction its as [|[k rr] its IH]; intros sz Hsz Hall; simpl.
  { split; [done|]. intros []. constructor. }
  apply Forall_cons in Hall as [Hrr Hall]. simpl in Hrr.
  destruct (Z.eqb_spec sz (-1)) as [?|_]; [done|].
  destruct (IH sz Hsz Hall) as [IH1 IH2].
  destruct (Z.eqb_spec sz (rr_Size rr)) as [Heq|Hne]; simpl.
  - split.
    + intros [_ ?]%Forall_cons. by apply IH1.
    + intros Hn. apply IH2. intros Hf. apply Hn. by constructor.
  - split; [|done]. intros [? _]%Forall_cons. simpl in *. congruence.
Qed.

(** X17: on sources that all report the same size [sz >= 0], with a
    budget [checkMBM] accepts and at least [RequiredCount] sources,
    [Decode] depends on nothing but the alignment of [sz]: a multiple of
    the encoded block size gives a decoded ranger of decoded size
    [sz / ebs * dbs], anything else the "invalid erasure decoder and range
    reader combo" error, in whatever order the map is iterated. *)
Theorem Decode_equal_sizes its rrs0 es0 mbm0 sz :
  checkMBM mbm0 = None →
  its ≡ₚ map_to_list rrs0 → rrs0 ≠ ∅ →
  RequiredCount es0 ≤ Z.of_nat (size rrs0) →
  0 ≤ sz → (∀ k rr, rrs0 !! k = Some rr → rr_Size rr = sz) →
  EncodedBlockSize es0 ≠ 0 →
  (Z.rem sz (EncodedBlockSize es0) = 0 →
     Decode checkMBM its rrs0 es0 mbm0 =
       Done (inl (DecodedRanger
         {| es := es0; rrs := rrs0; inSize := sz; mbm := mbm0 |}))
     ∧ Size {| es := es0; rrs := rrs0; inSize := sz; mbm := mbm0 |} =
         Done (wrap64 (wrap64 (Z.quot sz (EncodedBlockSize es0))
                       * DecodedBlockSize es0)))
  ∧ (Z.rem sz (EncodedBlockSize es0) ≠ 0 →
     Decode checkMBM its rrs0 es0 mbm0 =
       Done (inr (ErrInvalidCombo sz (EncodedBlockSize es0)))).
Proof.
  intros Hmbm Hperm Hne Hcount Hsz Hsame Hebs.
  assert (Hall : Forall (λ kv : Z * pieceRanger, rr_Size kv.2 = sz) its).
  { apply Forall_forall. intros [k rr] Hin. rewrite Hperm in Hin.
    apply elem_of_map_to_list in Hin. by eapply Hsame. }
  assert (Hloop : sizeLoop its (-1) = inl sz).
  { destruct its as [|[k rr] its'].
    { symmetry in Hperm.
      by apply Permutation_nil_r, map_to_list_empty_iff in Hperm. }
    apply Forall_cons in Hall as [Hrr Hall]. simpl in *. rewrite Hrr.
    apply sizeLoop_from; [lia| |done].
    eapply Forall_impl; [exact Hall|]. simpl. lia. }
  unfold Decode, Size. rewrite Hmbm, Hloop. simpl.
  destruct (Z.ltb_spec (Z.of_nat (size rrs0)) (RequiredCount es0)); [lia|].
  destruct (Z.eqb_spec sz (-1)); [lia|].
  destruct (Z.eqb_spec (EncodedBlockSize es0) 0); [done|].
  split; intros Hrem.
  - by rewrite Hrem.
  - by destruct (Z.eqb_spec (Z.rem sz (EncodedBlockSize es0)) 0).
Qed.

(** X18: when two sources report different sizes (all sizes being
    non-negative), [Decode] returns the "range reader sizes don't all
    match" error, in whatever order the map is iterated. *)
Theorem Decode_size_mismatch its rrs0 es0 mbm0 k1 r1 k2 r2 :
  checkMBM mbm0 = None →
  its ≡ₚ map_to_list rrs0 →
  RequiredCount es0 ≤ Z.of_nat (size rrs0) →
  (∀ k rr, rrs0 !! k = Some rr → 0 ≤ rr_Size rr) →
  rrs0 !! k1 = Some r1 → rrs0 !! k2 = Some r2 →
  rr_Size r1 ≠ rr_Size r2 →
  Decode checkMBM its rrs0 es0 mbm0 = Done (inr ErrSizesDontMatch).
Proof.
  intros Hmbm Hperm Hcount Hnn Hk1 Hk2 Hdiff.
  assert (Hin : ∀ k rr, rrs0 !! k = Some rr → (k, rr) ∈ its).
  { intros k rr Hk. rewrite Hperm. by apply elem_of_map_to_list. }
  assert (Hall : Forall (λ kv : Z * pieceRanger, rr_Size kv.2 ≠ -1) its).
  { apply Forall_forall. intros [k rr] Hkr. rewrite Hperm in Hkr.
    apply elem_of_map_to_list, Hnn in Hkr. simpl. lia. }
  assert (Hloop : sizeLoop its (-1) = inr ErrSizesDontMatch).
  { destruct its as [|[k rr] its']; [by apply Hin, elem_of_nil in Hk1|].
    pose proof Hall as Hall'.
    apply Forall_cons in Hall as [Hrr Hall]. simpl in *.
    apply sizeLoop_from; [done|done|]. intros Hsame.
    assert (Hs : ∀ k' rr', (k', rr') ∈ (k, rr) :: its' →
                           rr_Size rr' = rr_Size rr).
    { intros k' rr' [[= -> ->]|Hi]%elem_of_cons; [done|].
      rewrite Forall_forall in Hsame. apply (Hsame _ Hi). }
    apply Hdiff. rewrite (Hs _ _ (Hin _ _ Hk1)), (Hs _ _ (Hin _ _ Hk2)).
    done. }
  unfold Decode. rewrite Hmbm, Hloop.
  by destruct (Z.ltb_spec (Z.of_nat (size rrs0)) (RequiredCount es0)); [lia|].
Qed.
End DecoderMore.

Section RangeMore.
Context {SR : Type} `{!StripeReaderOps SR}.
Variable checkMBM : Z → option error.
Variable NewStripeReader : gmap Z pieceStream → ErasureScheme → Z → SR.

(** The readers map [Range] builds: the sub-range of every piece, a fatal
    stream where the request failed. *)
Local Abbreviation subranges dr fb bc :=
  ((λ rr, match rr_Range rr (wrap64 (fb * EncodedBlockSize (es dr)))
                  (wrap64 (bc * EncodedBlockSize (es dr))) with
          | inl r => r
          | inr e => fatalPiece e
          end) <$> rrs dr : gmap Z pieceStream).

(** [Range] up to the head discard, for a window inside [int64]. *)
Lemma Range_unfold (dr : decodedRanger) (offset len : Z) fuel :
  let dbs := DecodedBlockSize (es dr) in
  let fb := (calcEncompassingBlocks offset len dbs).1 in
  let bc := (calcEncompassingBlocks offset len dbs).2 in
  0 < dbs → checkMBM (mbm dr) = None →
  0 ≤ offset → 0 ≤ len → offset + len + dbs ≤ 2 ^ 63 →
  0 ≤ bc ∧ fb * dbs = offset - offset mod dbs ∧
  Range checkMBM NewStripeReader fuel dr offset len =
    match CopyN fuel
            (Decoded {| readers := subranges dr fb bc; scheme := es dr;
                        stripeReader :=
                          NewStripeReader (subranges dr fb bc) (es dr) (mbm dr);
                        outbuf := []; err := None; currentStripe := 0;
                        expectedStripes := bc; closeDone := false;
                        closeErr := None; srCloses := 0 |})
            (offset mod dbs) with
    | None => None
    | Some (_, (_, Some e)) => Some (Done (inr (ErrWrap e)))
    | Some (r', (_, None)) => Some (Done (inl (LimitReadCloser r' len)))
    end.
Proof.
  intros dbs fb bc Hdbs Hmbm Hoff Hlen Hrange.
  assert (Hfb : fb = offset / dbs).
  { subst fb. unfold calcEncompassingBlocks. by destruct (len =? 0). }
  assert (Hmod : fb * dbs = offset - offset mod dbs).
  { rewrite Hfb. pose proof (Z.div_mod offset dbs ltac:(lia)) as Ho.
    generalize dependent (offset / dbs).
    generalize dependent (offset mod dbs). intros. lia. }
  pose proof (Z.mod_pos_bound offset dbs Hdbs) as Hm.
  assert (Hbc : 0 ≤ bc ∧ 0 ≤ bc * dbs < 2 ^ 63).
  { destruct (decide (len = 0)) as [->|Hne].
    - subst bc. unfold calcEncompassingBlocks. simpl. lia.
    - destruct (window_cover offset len dbs) as (_ & ? & ? & _); lia. }
  destruct Hbc as [Hbc0 Hbcd]. split; [done|]. split; [done|].
  unfold Range. fold dbs.
  assert (Hcalc : calcEncompassingBlocks offset len dbs = (fb, bc))
    by (subst fb bc; by destruct (calcEncompassingBlocks offset len dbs)).
  rewrite Hcalc.
  rewrite (wrap64_id (bc * dbs)) by (unfold int64_range; lia).
  rewrite (wrap64_id (fb * dbs)) by (unfold int64_range; lia).
  replace (offset - fb * dbs) with (offset mod dbs) by lia.
  rewrite (wrap64_id (offset mod dbs)) by (unfold int64_range; lia).
  unfold DecodeReaders. fold dbs.
  destruct (Z.ltb_spec (bc * dbs) 0); [lia|].
  destruct (Z.eqb_spec dbs 0); [lia|].
  rewrite Z.rem_mul, Z.quot_mul, Hmbm by lia. simpl.
  by destruct (Z.ltb_spec dbs 0); [lia|].
Qed.

(** The discard of [n > 0] bytes when the first [Read] fails. *)
Lemma CopyN_first_read_error fuel (r r1 : Reader SR) n e :
  0 < n →
  rdRead r (discardBufSize `min` Z.to_nat n) = (r1, ([], Some e)) →
  CopyN (S fuel) r n = Some (r1, (0, Some e)).
Proof.
  intros Hn Hrd. unfold CopyN. cbn [discardReadFrom rdRead].
  destruct (Z.leb_spec n 0); [lia|]. rewrite Hrd.
  change (0 + Z.of_nat (length (@nil byte))) with 0.
  destruct e; cbn beta iota;
    destruct (Z.eqb_spec 0 n); try lia;
    destruct (Z.ltb_spec 0 n); try lia; done.
Qed.

(** X19: for a block-aligned offset [Range] never fails and reads no
    stripe: whatever the piece sources answer to their sub-range requests,
    it returns a reader limited to [length] bytes over a fresh decoded
    reader, in which every piece whose request failed with [e] is the fatal
    stream of [e]; the failures only show when the reader is read. *)
Theorem Range_aligned_defers_failures (dr : decodedRanger)
    (offset len : Z) (fuel : nat) :
  let dbs := DecodedBlockSize (es dr) in
  let fb := (calcEncompassingBlocks offset len dbs).1 in
  let bc := (calcEncompassingBlocks offset len dbs).2 in
  0 < dbs → checkMBM (mbm dr) = None →
  0 ≤ offset → 0 ≤ len → offset + len + dbs ≤ 2 ^ 63 →
  offset mod dbs = 0 →
  ∃ dr0,
    Range checkMBM NewStripeReader (S fuel) dr offset len
      = Some (Done (inl (Limited (Decoded dr0) len)))
    ∧ outbuf dr0 = [] ∧ err dr0 = None ∧ currentStripe dr0 = 0
    ∧ expectedStripes dr0 = bc
    ∧ stripeReader dr0 = NewStripeReader (readers dr0) (es dr) (mbm dr)
    ∧ ∀ k rr, rrs dr !! k = Some rr →
        readers dr0 !! k =
          Some (match rr_Range rr (wrap64 (fb * EncodedBlockSize (es dr)))
                        (wrap64 (bc * EncodedBlockSize (es dr))) with
                | inl r => r
                | inr e => fatalPiece e
                end).
Proof.
  intros dbs fb bc Hdbs Hmbm Hoff Hlen Hrange Hal.
  destruct (Range_unfold dr offset len (S fuel) Hdbs Hmbm Hoff Hlen Hrange)
    as (_ & _ & ->).
  fold dbs fb bc. rewrite Hal. eexists. split; [reflexivity|].
  split_and!; try done. intros k rr Hk. simpl.
  by rewrite lookup_fmap, Hk.
Qed.

(** X20: at an offset inside a block [Range] has to discard the head of
    the first block before it returns. For an empty window no block is
    fetched and the discard meets EOF; for a non-empty window whose first
    stripe cannot be read with error [e], the discard meets [e]. In both
    cases [Range] returns no reader but the wrapped error. *)
Theorem Range_unaligned_head_error (dr : decodedRanger)
    (offset len : Z) (fuel : nat) :
  let dbs := DecodedBlockSize (es dr) in
  let fb := (calcEncompassingBlocks offset len dbs).1 in
  let bc := (calcEncompassingBlocks offset len dbs).2 in
  0 < dbs → checkMBM (mbm dr) = None →
  0 ≤ offset → 0 ≤ len → offset + len + dbs ≤ 2 ^ 63 →
  offset mod dbs ≠ 0 →
  (len = 0 →
     Range checkMBM NewStripeReader (S fuel) dr offset len
       = Some (Done (inr (ErrWrap EOF))))
  ∧ (∀ sr' b e, 0 < len →
       ReadStripe (NewStripeReader (subranges dr fb bc) (es dr) (mbm dr))
         0 [] = (sr', (b, Some e)) →
       Range checkMBM NewStripeReader (S fuel) dr offset len
         = Some (Done (inr (ErrWrap e)))).
Proof.
  intros dbs fb bc Hdbs Hmbm Hoff Hlen Hrange Hal.
  destruct (Range_unfold dr offset len (S fuel) Hdbs Hmbm Hoff Hlen Hrange)
    as (Hbc & _ & ->).
  fold dbs fb bc.
  pose proof (Z.mod_pos_bound offset dbs Hdbs) as Hm.
  set (head := offset mod dbs) in *.
  split.
  - intros ->. assert (bc = 0) as ->.
    { subst bc. unfold calcEncompassingBlocks. done. }
    erewrite CopyN_first_read_error; [done|lia|]. reflexivity.
  - intros sr' b e Hpos Hrs.
    assert (0 < bc).
    { destruct (window_cover offset len dbs) as (Hh & Hc & _ & _); lia. }
    erewrite CopyN_first_read_error; [done|lia|].
    cbn [rdRead]. unfold Read. cbn [outbuf err currentStripe expectedStripes
      stripeReader length Z.of_nat Z.leb Z.compare].
    destruct (Z.geb_spec 0 bc); [lia|]. rewrite Hrs. reflexivity.
Qed.
End RangeMore.

(** *** A stripe that cannot be read *)

Section StripeFailure.
Context {SR : Type} `{!StripeReaderOps SR}.
Variable checkMBM : Z → option error.
Variable NewStripeReader : gmap Z pieceStream → ErasureScheme → Z → SR.
Variable block : Z → list byte.
Variable Inv : SR → Prop.
Variables dbs n : Z.
Variable j : nat.
Variable e0 : error.
Hypothesis dbs_pos : 0 < dbs.
Hypothesis j_range : Z.of_nat j < n < 2 ^ 63.
Hypothesis block_length :
  ∀ i, 0 ≤ i < Z.of_nat j → Z.of_nat (length (block i)) = dbs.
(** The stripes below [j] can be read, stripe [j] fails with [e0]. *)
Hypothesis ReadStripe_ok : ∀ sr i p, Inv sr → 0 ≤ i < Z.of_nat j →
  ∃ sr', ReadStripe sr i p = (sr', (p ++ block i, None)) ∧ Inv sr'.
Hypothesis ReadStripe_fails : ∀ sr p, Inv sr →
  ∃ sr', ReadStripe sr (Z.of_nat j) p = (sr', ([], Some e0)).

Local Abbreviation Xj := (decodedStream block j).

Lemma Read_before_failure k pre (dr : decodedReader SR) plen dr' d e :
  mid Inv block n k pre dr → (k ≤ j)%nat →
  Read dr plen = (dr', (d, e)) →
  (e = None ∧ (∃ k', mid Inv block n k' (pre ++ d) dr' ∧ (k' ≤ j)%nat) ∧
   ((0 < plen)%nat → d ≠ []))
  ∨ (e = Some e0 ∧ d = [] ∧ pre = Xj ∧ stuck e0 (Decoded dr')).
Proof using dbs_pos j_range block_length ReadStripe_ok ReadStripe_fails.
  intros (Herr & HInv & Hexp & Hcur & Hk & Hpre) Hkj. unfold Read.
  destruct (Z.leb_spec (Z.of_nat (length (outbuf dr))) 0) as [Hemp|Hne].
  - assert (Hob : outbuf dr = [])
      by (destruct (outbuf dr); simpl in *; [done|lia]).
    rewrite Herr, Hexp, Hcur.
    destruct (Z.geb_spec (Z.of_nat k) n) as [Hge|Hlt]; [lia|].
    destruct (decide (k = j)) as [->|Hne].
    + destruct (ReadStripe_fails (stripeReader dr) (outbuf dr) HInv)
        as (sr' & ->).
      intros [= <- <- <-]. right. simpl. split_and!; try done.
      by rewrite Hob, app_nil_r in Hpre.
    + destruct (ReadStripe_ok (stripeReader dr) (Z.of_nat k) (outbuf dr))
        as (sr' & -> & HInv'); [done|lia|].
      rewrite drain_spec. simpl. intros [= <- <- <-]. left.
      rewrite Hob in *. rewrite app_nil_r in Hpre. simpl.
      assert (Hlen := block_length (Z.of_nat k) ltac:(lia)).
      split; [done|]. split.
      * exists (S k). split; [|lia]. split_and!; simpl; try done.
        -- rewrite wrap64_id by (unfold int64_range; lia). lia.
        -- lia.
        -- rewrite <- app_assoc, take_drop, decodedStream_S. by f_equal.
      * intros Hp Hnil. apply (f_equal length) in Hnil.
        rewrite length_take in Hnil. simpl in Hnil. lia.
  - rewrite drain_spec. intros [= <- <- <-]. left. simpl.
    split; [done|]. split.
    + exists k. split; [|done]. split_and!; simpl; try done.
      by rewrite <- app_assoc, take_drop.
    + intros Hp Hnil. apply (f_equal length) in Hnil.
      rewrite length_take in Hnil. simpl in Hnil. lia.
Qed.

Lemma run_reads_before_failure ps : ∀ k pre (dr : decodedReader SR) r' evs,
  mid Inv block n k pre dr → (k ≤ j)%nat →
  run (Decoded dr) (OpRead <$> ps) = (r', evs) →
  ((pre ++ bytesRead evs `prefix_of` Xj ∧
    (length pre + countPos ps ≤ length (pre ++ bytesRead evs))%nat)
   ∨ (pre ++ bytesRead evs = Xj ∧ last evs = Some (EvRead [] (Some e0))))
  ∧ (∀ i d e, evs !! i = Some (EvRead d (Some e)) →
       e = e0 ∧ d = [] ∧ pre ++ bytesRead (take i evs) = Xj ∧
       ∀ i' d' e', (i < i')%nat → evs !! i' = Some (EvRead d' e') →
         d' = [] ∧ e' = Some e0)
  ∧ (∀ i plen d, ps !! i = Some plen → (0 < plen)%nat →
       evs !! i = Some (EvRead d None) → d ≠ []).
Proof using dbs_pos j_range block_length ReadStripe_ok ReadStripe_fails.
  induction ps as [|p ps IH]; intros k pre dr r' evs Hmid Hkj; simpl.
  - intros [= <- <-]. split; [|done]. left. simpl. rewrite app_nil_r.
    split.
    + destruct Hmid as (_ & _ & _ & _ & _ & Hpre).
      trans (decodedStream block k); [by eexists|].
      by apply decodedStream_prefix.
    + unfold countPos. simpl. lia.
  - destruct (Read dr p) as [dr1 [d e]] eqn:HR.
    destruct (run (Decoded dr1) _) as [r2 evs'] eqn:Hrun.
    intros [= <- <-].
    destruct (Read_before_failure _ _ _ _ _ _ _ Hmid Hkj HR)
      as [(-> & (k1 & Hmid1 & Hk1) & Hprog)|(-> & -> & HX & Hst)].
    + destruct (IH _ _ _ _ _ Hmid1 Hk1 Hrun) as (HA & HC & HD).
      cbn [bytesRead flat_map]. fold (bytesRead evs').
      rewrite app_assoc. split; [|split].
      * destruct HA as [[Hpre Hcount]|[HA1 HA2]]; [left|right].
        -- split; [done|].
           assert (Hd : (0 < p)%nat → (0 < length d)%nat).
           { intros Hp. specialize (Hprog Hp). destruct d; simpl; [done|lia]. }
           unfold countPos in *. rewrite filter_cons.
           rewrite length_app in Hcount.
           destruct (decide (0 < p)%nat) as [Hp|]; simpl;
             [specialize (Hd Hp)|]; lia.
        -- split; [done|]. destruct evs'; done.
      * intros [|i] d0 e1; simpl; [done|]. intros Hi.
        destruct (HC _ _ _ Hi) as (-> & -> & HXi & Hlater).
        rewrite app_assoc. split_and!; try done.
        intros [|i'] d' e' Hii; [lia|]. simpl. apply Hlater. lia.
      * intros [|i] plen d0; simpl.
        -- intros [= ->] Hp [= ->]. by apply Hprog.
        -- apply HD.
    + apply run_stuck_reads with (e := e0) in Hrun as ->; [|done].
      change (EvRead [] (Some e0) :: replicate (length ps) (EvRead [] (Some e0)))
        with (replicate (S (length ps)) (EvRead [] (Some e0))).
      rewrite bytesRead_replicate_nil, !app_nil_r. split; [|split].
      * right. split; [done|]. apply last_replicate_S.
      * intros i d0 e1 [[= -> ->] Hi]%lookup_replicate.
        rewrite take_replicate, bytesRead_replicate_nil, app_nil_r.
        split_and!; try done;
          by intros i' d' e' _ [[= -> ->] _]%lookup_replicate.
      * intros [|i] plen d0; simpl; [by intros _ _ [=]|].
        by intros _ _ [[=] _]%lookup_replicate.
Qed.
End StripeFailure.

Section StripeFailureTheorem.
Context {SR : Type} `{!StripeReaderOps SR}.
Variable checkMBM : Z → option error.
Variable NewStripeReader : gmap Z pieceStream → ErasureScheme → Z → SR.

(** X21: when the stripes below [j] can be read and stripe [j], one of the
    expected stripes, fails with the error [e0] and no bytes, the reader
    delivers the bytes of the first [j] blocks and nothing beyond them:
    whatever buffer sizes the caller uses, the bytes delivered are a prefix
    of these blocks, the only error a [Read] returns is [e0], it comes
    with no bytes exactly when all [j] blocks have been delivered, and it
    is returned again by every later [Read]. *)
Theorem Read_stops_at_failed_stripe (block : Z → list byte)
    (Inv : SR → Prop) (j : nat) (e0 : error) rs es0 expectedSize mbm0 :
  let dbs := DecodedBlockSize es0 in
  0 < dbs → 0 ≤ expectedSize < 2 ^ 63 → Z.rem expectedSize dbs = 0 →
  checkMBM mbm0 = None →
  Z.of_nat j < Z.quot expectedSize dbs →
  Inv (NewStripeReader rs es0 mbm0) →
  (∀ i, 0 ≤ i < Z.of_nat j → Z.of_nat (length (block i)) = dbs) →
  (∀ sr i p, Inv sr → 0 ≤ i < Z.of_nat j →
     ∃ sr', ReadStripe sr i p = (sr', (p ++ block i, None)) ∧ Inv sr') →
  (∀ sr p, Inv sr →
     ∃ sr', ReadStripe sr (Z.of_nat j) p = (sr', ([], Some e0))) →
  ∃ r0, DecodeReaders checkMBM NewStripeReader rs es0 expectedSize mbm0
          = Done r0 ∧
    let Xj := decodedStream block j in
    Z.of_nat (length Xj) = Z.of_nat j * dbs ∧
    ∀ ps r' evs, run r0 (OpRead <$> ps) = (r', evs) →
      bytesRead evs `prefix_of` Xj
      ∧ (∀ i d e, evs !! i = Some (EvRead d (Some e)) →
           e = e0 ∧ d = [] ∧ bytesRead (take i evs) = Xj ∧
           ∀ i' d' e', (i < i')%nat → evs !! i' = Some (EvRead d' e') →
             d' = [] ∧ e' = Some e0)
      ∧ (∀ i plen d, ps !! i = Some plen → (0 < plen)%nat →
           evs !! i = Some (EvRead d None) → d ≠ [])
      ∧ ((length Xj < countPos ps)%nat →
           bytesRead evs = Xj ∧ last evs = Some (EvRead [] (Some e0))).
Proof.
  intros dbs Hdbs HS Hrem Hmbm Hj HInv Hlen Hok Hfail.
  set (n := Z.quot expectedSize dbs) in *.
  assert (Hn : Z.of_nat j < n < 2 ^ 63).
  { split; [done|].
    assert (n ≤ expectedSize) by (apply Z.quot_le_upper_bound; nia). lia. }
  unfold DecodeReaders. fold dbs.
  destruct (Z.ltb_spec expectedSize 0); [lia|].
  destruct (Z.eqb_spec dbs 0); [lia|].
  rewrite Hrem, Hmbm. simpl.
  destruct (Z.ltb_spec dbs 0); [lia|].
  eexists. split; [reflexivity|]. fold n. cbv zeta. split.
  { rewrite (decodedStream_length block dbs (Z.of_nat j)) by (done || lia).
    lia. }
  intros ps r' evs Hrun.
  eapply (run_reads_before_failure block Inv dbs n j e0 Hdbs Hn Hlen Hok
            Hfail ps 0%nat []) in Hrun as (HA & HC & HD).
  2:{ split_and!; simpl; try done. lia. }
  2:{ lia. }
  simpl in HA, HC.
  assert (Hpre : bytesRead evs `prefix_of` decodedStream block j).
  { destruct HA as [[? _]|[-> _]]; done. }
  split_and!; try done.
  intros Hcount. destruct HA as [[_ Hc]|HA]; [|done].
  apply prefix_length in Hpre. lia.
Qed.
End StripeFailureTheorem.

(** ** The further properties on concrete stores and readers *)

Lemma Put_then_Get_witness :
  (Bolt.Put freshClient "k" (bytesOf "v")).2 = Done None
  ∧ (Bolt.Get (Bolt.Put freshClient "k" (bytesOf "v")).1 "k").2
      = Done (Some (bytesOf "v"), None).
Proof.
  destruct (Put_then_Get freshClient "k" (bytesOf "v")) as [H1 H2];
    [reflexivity|reflexivity|done|done|by vm_compute|by vm_compute|].
  split; [exact H1|]. by rewrite H2.
Defined.

Lemma Put_keeps_other_entries_witness :
  (Bolt.Get (Bolt.Put sampleClient "k" (bytesOf "v")).1 "a").2
    = Done (Some (bytesOf "2"), None).
Proof.
  destruct (Put_keeps_other_entries sampleClient "k" (bytesOf "v"))
    as [H1 _];
    [reflexivity|reflexivity|done|done|by vm_compute|by vm_compute|].
  by rewrite (H1 "a").
Defined.

Lemma Delete_then_Get_witness :
  (Bolt.Delete sampleClient "a").2 = Done None
  ∧ (Bolt.Get (Bolt.Delete sampleClient "a").1 "a").2 = Done (None, None)
  ∧ (Bolt.Get (Bolt.Delete sampleClient "a").1 "b").2
      = Done (Some (bytesOf "1"), None).
Proof.
  destruct (Delete_then_Get sampleClient "a" sampleBucket)
    as (H1 & H2 & H3); [reflexivity|reflexivity|reflexivity|].
  split; [exact H1|]. split; [by rewrite H2|]. by rewrite (H3 "b").
Defined.

Lemma Delete_List_without_bucket_witness :
  Bolt.Delete freshClient "a" = (freshClient, Panic NilDereference)
  ∧ Bolt.List freshClient None 0 = (freshClient, Panic NilDereference)
  ∧ Bolt.ReverseList freshClient (Some "a") 3
      = (freshClient, Panic NilDereference).
Proof.
  destruct (Delete_List_without_bucket freshClient "a" None 0)
    as (H1 & H2 & _); [reflexivity|reflexivity|reflexivity|].
  destruct (Delete_List_without_bucket freshClient "a" (Some "a") 3)
    as (_ & _ & H3); [reflexivity|reflexivity|reflexivity|].
  done.
Defined.

Lemma Get_without_bucket_witness :
  (Bolt.Get freshClient "a").2 = Panic NilDereference.
Proof. apply Get_without_bucket; reflexivity. Defined.

Lemma List_all_keys_ascending_witness :
  ∃ ks, Bolt.List sampleClient None 0 = (sampleClient, Done (ks, None))
    ∧ Sorted String.le ks ∧ NoDup ks
    ∧ ∀ k, k ∈ ks ↔ is_Some (sampleBucket !! k).
Proof.
  apply (List_all_keys_ascending sampleClient 0 sampleBucket);
    [reflexivity|reflexivity|reflexivity|lia].
Defined.

Lemma listHelper_limit_prefix_witness :
  ∃ ks, Bolt.listHelper sampleClient true (Some "c") 0
          = (sampleClient, Done (ks, None))
    ∧ Bolt.listHelper sampleClient true (Some "c") 2
        = (sampleClient, Done (take 2 ks, None)).
Proof.
  apply (listHelper_limit_prefix sampleClient true (Some "c") 2 sampleBucket);
    [reflexivity|reflexivity|reflexivity|lia].
Defined.

Lemma List_from_key_witness :
  Bolt.List sampleClient (Some "aa") 0
    = (sampleClient, Done (["ab"; "b"; "c"; "d"], None)).
Proof.
  rewrite (List_from_key sampleClient "aa" 0 sampleBucket);
    [reflexivity|reflexivity|reflexivity|reflexivity|lia].
Defined.

Lemma ReverseList_reverses_List_witness :
  ∃ ks, Bolt.List sampleClient None 0 = (sampleClient, Done (ks, None))
    ∧ Bolt.ReverseList sampleClient None 0
        = (sampleClient, Done (reverse ks, None)).
Proof.
  apply (ReverseList_reverses_List sampleClient 0 sampleBucket);
    [reflexivity|reflexivity|reflexivity|lia].
Defined.

Lemma ReverseList_from_stored_key_witness :
  Bolt.ReverseList sampleClient (Some "b") 0
    = (sampleClient, Done (["b"; "ab"; "a"], None)).
Proof.
  rewrite (ReverseList_from_stored_key sampleClient "b" 0 sampleBucket);
    [reflexivity|reflexivity|reflexivity|reflexivity|lia|by eexists].
Defined.

Lemma ReverseList_from_absent_key_witness :
  ∃ ks, Bolt.ReverseList sampleClient (Some "bb") 0
          = (sampleClient, Done (ks, None))
    ∧ ∃ k1 rest, ks = k1 :: rest ∧ is_Some (sampleBucket !! k1)
        ∧ String.le "bb" k1 ∧ k1 ≠ "bb".
Proof.
  destruct (ReverseList_from_absent_key sampleClient "bb" 0 sampleBucket)
    as (ks & H1 & _ & H3);
    [reflexivity|reflexivity|reflexivity|lia|reflexivity|].
  exists ks. split; [exact H1|]. apply (H3 "c"); [by eexists|done].
Defined.

Lemma Close_exactly_once_witness :
  ∃ dr0 r' evs agg,
    DecodeReaders checkNonNeg repNew closeFailPieces01 scheme24 4 0
      = Done (Decoded dr0)
    ∧ run (Decoded dr0)
        [OpClose (map_to_list closeFailPieces01); OpRead 4;
         OpClose (map_to_list closeFailPieces01)] = (r', evs)
    ∧ (∀ i res, evs !! i = Some (EvClose res) → res = Done agg)
    ∧ ps_closed <$> streamsOf closeFailPieces01 r' !! 1 = Some 1%nat
    ∧ srClosesOf r' = 1%nat.
Proof.
  destruct (DecodeReaders checkNonNeg repNew closeFailPieces01 scheme24 4 0)
    as [[|dr0|]|] eqn:HD; try discriminate HD.
  destruct (run (Decoded dr0)
              [OpClose (map_to_list closeFailPieces01); OpRead 4;
               OpClose (map_to_list closeFailPieces01)])
    as [r' evs] eqn:Hrun.
  destruct (Close_exactly_once (SR:=replicaReader) checkNonNeg repNew
              closeFailPieces01 scheme24 4 0 dr0
              [OpClose (map_to_list closeFailPieces01); OpRead 4;
               OpClose (map_to_list closeFailPieces01)] r' evs HD)
    as (agg & Hevs & Hfin); [| |exact Hrun|].
  - intros k [r Hk]. unfold closeFailPieces01 in Hk.
    apply lookup_insert_Some in Hk as [[<- _]|[_ Hk]]; [by vm_compute|].
    apply lookup_singleton_Some in Hk as [<- _]. by vm_compute.
  - intros its Hin.
    repeat (apply elem_of_cons in Hin as [Hin|Hin];
            [try discriminate Hin; by injection Hin as ->|]).
    by apply elem_of_nil in Hin.
  - exists dr0, r', evs, agg. split; [reflexivity|]. split; [exact Hrun|].
    split; [exact Hevs|].
    destruct Hfin as [Hcl Hsr]. { eexists. left. }
    split; [|exact Hsr].
    apply (Hcl 1 (streamOf "ABCD" (Some (ErrOther "close 1")))).
    reflexivity.
Defined.

Lemma Close_key_out_of_range_panics_witness :
  ∃ dr dr' p,
    DecodeReaders checkNonNeg repNew pieceAt5 scheme24 4 0 = Done (Decoded dr)
    ∧ Close dr (map_to_list pieceAt5) = (dr', Panic p)
    ∧ srCloses dr' = 0%nat
    ∧ Close dr' (map_to_list pieceAt5) = (dr', Done None).
Proof.
  destruct (DecodeReaders checkNonNeg repNew pieceAt5 scheme24 4 0)
    as [[|dr|]|] eqn:HD; try discriminate HD.
  assert (Hdr : closeDone dr = false ∧ readers dr = pieceAt5
                ∧ srCloses dr = 0%nat ∧ closeErr dr = None).
  { injection HD as <-. done. }
  destruct Hdr as (Hopen & Hrs & Hsr & Hce).
  destruct (Close_key_out_of_range_panics dr (map_to_list pieceAt5) 5 Hopen)
    as (dr' & p & HC & Hsr' & _ & Hagain).
  - by rewrite Hrs.
  - rewrite Hrs. by eexists.
  - rewrite Hrs. intros [_ Hle]. vm_compute in Hle. by apply Hle.
  - exists dr, dr', p. split; [reflexivity|]. split; [exact HC|].
    split; [congruence|]. rewrite Hagain. by rewrite Hce.
Defined.

Lemma Close_contiguous_aggregate_witness :
  ∃ dr,
    DecodeReaders checkNonNeg repNew closeFailPieces01 scheme24 4 0
      = Done (Decoded dr)
    ∧ (Close dr (reverse (map_to_list closeFailPieces01))).2
        = Done (Some (ErrCombined [ErrOther "close 0"; ErrOther "close 1"])).
Proof.
  destruct (DecodeReaders checkNonNeg repNew closeFailPieces01 scheme24 4 0)
    as [[|dr|]|] eqn:HD; try discriminate HD.
  assert (Hdr : closeDone dr = false ∧ readers dr = closeFailPieces01
                ∧ stripeReader dr = repNew closeFailPieces01 scheme24 0).
  { injection HD as <-. done. }
  destruct Hdr as (Hopen & Hrs & Hsr).
  exists dr. split; [reflexivity|].
  rewrite (Close_contiguous_aggregate dr
             (reverse (map_to_list closeFailPieces01)) Hopen).
  - rewrite Hrs, Hsr. by vm_compute.
  - rewrite Hrs. apply reverse_Permutation.
  - rewrite Hrs. intros k. change (size closeFailPieces01) with 2%nat.
    unfold closeFailPieces01. split.
    + intros [r Hk].
      apply lookup_insert_Some in Hk as [[<- _]|[_ Hk]]; [lia|].
      apply lookup_singleton_Some in Hk as [<- _]. lia.
    + intros Hk. assert (k = 0 ∨ k = 1) as [->| ->] by lia; by eexists.
Defined.

Lemma Decode_equal_sizes_witness :
  Decode checkNonNeg (map_to_list rangers01) rangers01 scheme24 0
    = Done (inl (DecodedRanger
        {| es := scheme24; rrs := rangers01; inSize := 8; mbm := 0 |}))
  ∧ Size {| es := scheme24; rrs := rangers01; inSize := 8; mbm := 0 |}
      = Done 8.
Proof.
  destruct (Decode_equal_sizes checkNonNeg (map_to_list rangers01)
              rangers01 scheme24 0 8) as [H _].
  - reflexivity.
  - reflexivity.
  - intros Hemp. apply (f_equal (λ m, m !! 0)) in Hemp. by vm_compute in Hemp.
  - by vm_compute.
  - lia.
  - intros k rr Hk. unfold rangers01 in Hk.
    apply lookup_insert_Some in Hk as [[_ <-]|[_ Hk]]; [reflexivity|].
    apply lookup_singleton_Some in Hk as [_ <-]. reflexivity.
  - by vm_compute.
  - destruct H as [H1 H2]; [reflexivity|]. split; [exact H1|].
    rewrite H2. reflexivity.
Defined.

Lemma Decode_size_mismatch_witness :
  Decode checkNonNeg (reverse (map_to_list unequalRangers01))
    unequalRangers01 scheme24 0 = Done (inr ErrSizesDontMatch).
Proof.
  apply (Decode_size_mismatch checkNonNeg _ unequalRangers01 scheme24 0
           0 (rangerOf "ABCDEFGH") 1 (rangerOf "ABCD")).
  - reflexivity.
  - apply reverse_Permutation.
  - by vm_compute.
  - intros k rr Hk. unfold unequalRangers01 in Hk.
    apply lookup_insert_Some in Hk as [[_ <-]|[_ Hk]]; [by vm_compute|].
    apply lookup_singleton_Some in Hk as [_ <-]. by vm_compute.
  - reflexivity.
  - reflexivity.
  - by vm_compute.
Defined.

Lemma Range_aligned_defers_failures_witness :
  ∃ dr0,
    Range checkNonNeg repNew 1
      {| es := scheme24; rrs := brokenRangers01; inSize := 8; mbm := 0 |} 4 4
      = Some (Done (inl (Limited (Decoded dr0) 4)))
    ∧ readers dr0 !! 0 = Some (fatalPiece (ErrOther "piece unavailable"))
    ∧ outbuf dr0 = [] ∧ currentStripe dr0 = 0.
Proof.
  destruct (Range_aligned_defers_failures (SR:=replicaReader) checkNonNeg
              repNew
              {| es := scheme24; rrs := brokenRangers01; inSize := 8;
                 mbm := 0 |} 4 4 0)
    as (dr0 & HR & Hob & _ & Hcs & _ & _ & Hrd);
    [by vm_compute|reflexivity|lia|lia|by vm_compute|reflexivity|].
  exists dr0. split; [exact HR|]. split; [|done].
  rewrite (Hrd 0 brokenRanger); reflexivity.
Defined.

Lemma Range_unaligned_head_error_witness :
  Range checkNonNeg repNew 1
    {| es := scheme24; rrs := brokenRangers01; inSize := 8; mbm := 0 |} 2 5
    = Some (Done (inr (ErrWrap (ErrOther "not enough pieces")))).
Proof.
  destruct (Range_unaligned_head_error (SR:=replicaReader) checkNonNeg
              repNew
              {| es := scheme24; rrs := brokenRangers01; inSize := 8;
                 mbm := 0 |} 2 5 0)
    as [_ H];
    [by vm_compute|reflexivity|lia|lia|by vm_compute|by vm_compute|].
  eapply H; [lia|]. vm_compute. reflexivity.
Defined.

Lemma Read_stops_at_failed_stripe_witness :
  ∃ r0,
    DecodeReaders checkNonNeg repNew shortPieces01 scheme24 8 0 = Done r0
    ∧ ∀ ps r' evs, run r0 (OpRead <$> ps) = (r', evs) →
        (4 < countPos ps)%nat →
        bytesRead evs = bytesOf "ABCD"
        ∧ last evs = Some (EvRead [] (Some (ErrOther "not enough pieces"))).
Proof.
  destruct (Read_stops_at_failed_stripe (SR:=replicaReader) checkNonNeg
              repNew
              (λ i, take 4 (drop (Z.to_nat i * 4) (bytesOf "ABCD")))
              (λ sr, sr = repNew shortPieces01 scheme24 0)
              1 (ErrOther "not enough pieces")
              shortPieces01 scheme24 8 0)
    as (r0 & HD & _ & Hrun).
  - by vm_compute.
  - vm_compute. split; [discriminate|reflexivity].
  - reflexivity.
  - reflexivity.
  - by vm_compute.
  - reflexivity.
  - intros i Hi. assert (i = 0) as -> by lia. reflexivity.
  - intros sr i p -> Hi. assert (i = 0) as -> by lia.
    eexists. split; reflexivity.
  - intros sr p ->. eexists. reflexivity.
  - exists r0. split; [exact HD|]. intros ps r' evs Hr Hc.
    destruct (Hrun ps r' evs Hr) as (_ & _ & _ & Hfin).
    apply Hfin. exact Hc.
Defined.

Lemma Range_window_witness :
  ∃ r,
    Range checkNonNeg repNew 4
      {| es := scheme24; rrs := rangers01; inSize := 8; mbm := 0 |} 2 5
      = Some (Done (inl r))
    ∧ ∀ ps r' evs, run r (OpRead <$> ps) = (r', evs) →
        5 < Z.of_nat (countPos ps) →
        bytesRead evs = bytesOf "CDEFG"
        ∧ last evs = Some (EvRead [] (Some EOF)).
Proof.
  destruct (Range_window (SR:=replicaReader) checkNonNeg repNew
              (λ i, take 4 (drop (Z.to_nat i * 4) (bytesOf "ABCDEFGH")))
              (λ sr, sr = {| rep_data := bytesOf "ABCDEFGH"; rep_bs := 4;
                             rep_closeErr := None |})
              {| es := scheme24; rrs := rangers01; inSize := 8; mbm := 0 |}
              2 5)
    with (fuel := 4%nat) as (r & HR & _ & Hrun).
  - by vm_compute.
  - reflexivity.
  - lia.
  - lia.
  - by vm_compute.
  - by vm_compute.
  - intros i Hi. change (_ .2) with 2 in Hi.
    assert (i = 0 ∨ i = 1) as [->| ->] by lia; reflexivity.
  - intros sr i p -> Hi. change (_ .2) with 2 in Hi.
    assert (i = 0 ∨ i = 1) as [->| ->] by lia;
      (eexists; split; [|reflexivity]); reflexivity.
  - by vm_compute.
  - exists r. split; [exact HR|]. intros ps r' evs Hr Hc.
    destruct (Hrun ps r' evs Hr) as (_ & _ & _ & Hfin).
    apply Hfin. exact Hc.
Defined.
